(** * Streaming kinematics of the erg analyser: detector, metrics, threshold, geometry

    Shallow embedding of [docs/lib/kinematics.mjs] (the [StrokeState] class and
    the two angle functions) and of the adaptive catch threshold of the frame
    handler ([updateKneeWindow], [estimateCatchThreshold], [onResults]).

    Number model.  A JavaScript number that the detector stores (timestamps,
    angles, thresholds) is an exact rational [Q]; the [angle] argument of
    [update], the only value the code tests with [Number.isFinite], ranges
    over [jsnum], which adds NaN and the two infinities.  Counters and window
    lengths are integers ([Z]), array lengths and indices are [nat].  The
    geometry kernel needs square roots and inverse trigonometric functions and
    is embedded over the real numbers [R].  IEEE rounding, overflow and
    underflow are not modelled.

    Layout.  The modules [Detector], [Threshold], [Geometry], [Smoother],
    [Session], [Letterbox] and [Construction] hold the code; [DetectorSpec],
    [MoreSpec] and [SessionSpec] hold the notions the statements use and the
    sessions they are tried on; [DetectorFacts], [ThresholdFacts],
    [GeometryFacts], [DetectorMore] and [HandlerFacts] hold the proofs.
    [Detector] works with integer window settings; [Construction] is the
    constructor on arbitrary numbers. *)

From Stdlib Require Import List ZArith QArith Qabs Qminmax Reals Bool Lia Lqa Lra.
Local Open Scope Q_scope.
Import ListNotations.

(** ** JavaScript numbers and comparisons *)

Inductive jsnum : Type :=
| Fin (q : Q)
| NaN
| PosInf
| NegInf.

(** [Number.isFinite] *)
Definition isFinite (x : jsnum) : bool :=
  match x with
  | Fin _ => true
  | _ => false
  end.

Definition Qleb (x y : Q) : bool := Qle_bool x y.
Definition Qltb (x y : Q) : bool := negb (Qle_bool y x).

(** [Math.max] and [Math.min] on finite numbers *)
Definition Math_max (x y : Q) : Q := if Qleb x y then y else x.
Definition Math_min (x y : Q) : Q := if Qleb x y then x else y.

(** [x <= y] where [x] may be NaN: every comparison with NaN is false. *)
Definition js_le (x : jsnum) (y : Q) : bool :=
  match x with
  | Fin q => Qleb q y
  | NaN => false
  | PosInf => false
  | NegInf => true
  end.

(** [arr[arr.length - 1]]: the last element, [undefined] on the empty array. *)
Definition last_elem {A : Type} (l : list A) : option A :=
  nth_error l (length l - 1).

(** ** The stroke detector *)

Module Detector.

Record AngleSample : Type := mkAngle { sample_t : Q; sample_a : Q }.
Record DerivSample : Type := mkDeriv { deriv_t : Q; deriv_d : Q }.

Record StrokeState : Type := mkStrokeState {
  catchAngleMax : Q;
  smooth : Z;
  minCatchIntervalSec : Q;
  confirmFrames : Z;
  windowSize : Z;
  angles : list AngleSample;
  deriv : list DerivSample;
  catches : list Q;
  finishes : list Q;
  _posStreak : Z
}.

(** The options object of the constructor; an absent key takes its default. *)
Record Options : Type := mkOptions {
  opt_catchAngleMax : option Q;
  opt_smooth : option Z;
  opt_minCatchIntervalSec : option Q;
  opt_confirmFrames : option Z;
  opt_windowSize : option Z
}.

Definition default {A : Type} (d : A) (o : option A) : A :=
  match o with
  | Some v => v
  | None => d
  end.

(** [constructor({catchAngleMax = 110, smooth = 5, minCatchIntervalSec = 0.9,
    confirmFrames = 2, windowSize = 9} = {})], on the integer window
    settings and finite thresholds the detector works with.  The constructor
    on arbitrary numbers (fractions, NaN, infinities) is
    [Construction.constructor_settings]; the two store the same settings on
    integer input. *)
Definition new_StrokeState (o : Options) : StrokeState :=
  {| catchAngleMax := default 110 (opt_catchAngleMax o);
     smooth := Z.max 1 (default 5%Z (opt_smooth o));
     minCatchIntervalSec := default (9 # 10) (opt_minCatchIntervalSec o);
     confirmFrames := Z.max 1 (default 2%Z (opt_confirmFrames o));
     windowSize := Z.max 3 (default 9%Z (opt_windowSize o));
     angles := [];
     deriv := [];
     catches := [];
     finishes := [];
     _posStreak := 0 |}.

Definition set_catchAngleMax (s : StrokeState) (v : Q) : StrokeState :=
  mkStrokeState v (smooth s) (minCatchIntervalSec s) (confirmFrames s)
    (windowSize s) (angles s) (deriv s) (catches s) (finishes s) (_posStreak s).

Definition set_angles (s : StrokeState) (v : list AngleSample) : StrokeState :=
  mkStrokeState (catchAngleMax s) (smooth s) (minCatchIntervalSec s)
    (confirmFrames s) (windowSize s) v (deriv s) (catches s) (finishes s)
    (_posStreak s).

Definition set_deriv (s : StrokeState) (v : list DerivSample) : StrokeState :=
  mkStrokeState (catchAngleMax s) (smooth s) (minCatchIntervalSec s)
    (confirmFrames s) (windowSize s) (angles s) v (catches s) (finishes s)
    (_posStreak s).

Definition set_catches (s : StrokeState) (v : list Q) : StrokeState :=
  mkStrokeState (catchAngleMax s) (smooth s) (minCatchIntervalSec s)
    (confirmFrames s) (windowSize s) (angles s) (deriv s) v (finishes s)
    (_posStreak s).

Definition set_finishes (s : StrokeState) (v : list Q) : StrokeState :=
  mkStrokeState (catchAngleMax s) (smooth s) (minCatchIntervalSec s)
    (confirmFrames s) (windowSize s) (angles s) (deriv s) (catches s) v
    (_posStreak s).

Definition set_posStreak (s : StrokeState) (v : Z) : StrokeState :=
  mkStrokeState (catchAngleMax s) (smooth s) (minCatchIntervalSec s)
    (confirmFrames s) (windowSize s) (angles s) (deriv s) (catches s)
    (finishes s) v.

(** [smoothedAngle()]: [None] is [null].  The loop adds the samples at the
    indices [length - smooth .. length - 1] from left to right; dividing the
    empty sum by [smooth = 0] is NaN. *)
Definition smoothedAngle (s : StrokeState) : option jsnum :=
  let len := Z.of_nat (length (angles s)) in
  if (len <? smooth s)%Z then None
  else
    let tail := skipn (Z.to_nat (len - smooth s)) (angles s) in
    let sum := fold_left (fun acc p => acc + sample_a p) tail 0 in
    if (smooth s =? 0)%Z then Some NaN
    else Some (Fin (sum / inject_Z (smooth s))).

(** The scan of [_isLocalMin]: [minA] starts at [Infinity] ([None]) and
    [minIdx] at [-1]; [i] is the index of the head of the remaining samples. *)
Fixpoint localMin_scan (l : list AngleSample) (i : Z) (minA : option Q)
    (minIdx : Z) : Z :=
  match l with
  | [] => minIdx
  | p :: rest =>
      let a := sample_a p in
      let lower := match minA with
                   | None => true
                   | Some m => Qltb a m
                   end in
      if lower then localMin_scan rest (i + 1) (Some a) i
      else localMin_scan rest (i + 1) minA minIdx
  end.

Definition _isLocalMin (s : StrokeState) : bool :=
  let len := Z.of_nat (length (angles s)) in
  if (len <? windowSize s)%Z then false
  else
    let end_ := (len - 1)%Z in
    let start := Z.max 0 (end_ - windowSize s + 1) in
    let minIdx := localMin_scan (skipn (Z.to_nat start) (angles s)) start None (-1) in
    (minIdx =? end_)%Z.

(** First block of [update]: push the sample, and the finite difference
    against the previous sample when there is one. *)
Definition push_sample (s : StrokeState) (t angle : Q) : StrokeState :=
  let s1 := set_angles s (angles s ++ [mkAngle t angle]) in
  match last_elem (angles s) with
  | Some p0 =>
      let dt := Math_max (1 # 1000000) (t - sample_t p0) in
      set_deriv s1 (deriv s ++ [mkDeriv t ((angle - sample_a p0) / dt)])
  | None => s1
  end.

(** Second block: the streak of non-negative derivatives. *)
Definition update_streak (s : StrokeState) : StrokeState :=
  match last_elem (deriv s) with
  | Some dNow =>
      set_posStreak s
        (if Qleb 0 (deriv_d dNow) then (_posStreak s + 1)%Z else 0%Z)
  | None => s
  end.

(** [catches.length === 0 || t - catches[catches.length - 1] > minCatchIntervalSec] *)
Definition lastCatchOk (s : StrokeState) (t : Q) : bool :=
  match last_elem (catches s) with
  | None => true
  | Some c => Qltb (minCatchIntervalSec s) (t - c)
  end.

(** [sm != null && sm <= catchAngleMax] *)
Definition underThreshold (s : StrokeState) : bool :=
  match smoothedAngle s with
  | None => false
  | Some sm => js_le sm (catchAngleMax s)
  end.

(** The guard of the primary rule. *)
Definition primary_fires (s : StrokeState) (t : Q) : bool :=
  let n := length (deriv s) in
  if (2 <=? n)%nat then
    match nth_error (deriv s) (n - 2), nth_error (deriv s) (n - 1) with
    | Some dPrev, Some dNow =>
        underThreshold s
        && Qltb (deriv_d dPrev) 0 && Qleb 0 (deriv_d dNow)
        && lastCatchOk s t
        && (confirmFrames s <=? _posStreak s)%Z
        && _isLocalMin s
    | _, _ => false
    end
  else false.

Definition primary_rule (s : StrokeState) (t : Q) : StrokeState :=
  if primary_fires s t then set_catches s (catches s ++ [t]) else s.

(** [last && Math.abs(last - t) < 1e-3]: [undefined] and [0] are falsy. *)
Definition duplicate_of_last (s : StrokeState) (t : Q) : bool :=
  match last_elem (catches s) with
  | None => false
  | Some last => negb (Qeq_bool last 0) && Qltb (Qabs (last - t)) (1 # 1000)
  end.

(** The guard of the fallback rule, with its duplicate check. *)
Definition fallback_fires (s : StrokeState) (t : Q) : bool :=
  underThreshold s && _isLocalMin s && lastCatchOk s t
  && negb (duplicate_of_last s t).

Definition fallback_rule (s : StrokeState) (t : Q) : StrokeState :=
  if fallback_fires s t then set_catches s (catches s ++ [t]) else s.

(** The callback [(m, p) => (p.a > m.a ? p : m)] *)
Definition higher (m p : AngleSample) : AngleSample :=
  if Qltb (sample_a m) (sample_a p) then p else m.

(** [window.reduce(higher)] on a non-empty window: the first element seeds
    the accumulator. *)
Definition maxP (p0 : AngleSample) (rest : list AngleSample) : AngleSample :=
  fold_left higher rest p0.

(** [this.angles.filter((p) => p.t >= lastCatch)] *)
Definition window_since (lastCatch : Q) (l : list AngleSample) : list AngleSample :=
  filter (fun p => Qleb lastCatch (sample_t p)) l.

(** Last block: the finish of the current stroke. *)
Definition finish_rule (s : StrokeState) : StrokeState :=
  match last_elem (catches s) with
  | None => s
  | Some lastCatch =>
      let window := window_since lastCatch (angles s) in
      if (3 <=? length window)%nat then
        match window with
        | p0 :: rest =>
            let m := maxP p0 rest in
            match last_elem (finishes s) with
            | None => set_finishes s (finishes s ++ [sample_t m])
            | Some f =>
                if Qltb f (sample_t m)
                then set_finishes s (finishes s ++ [sample_t m])
                else s
            end
        | [] => s
        end
      else s
  end.

(** [update(t, angle)] *)
Definition update (s : StrokeState) (t : Q) (angle : jsnum) : StrokeState :=
  match angle with
  | Fin a =>
      let s1 := update_streak (push_sample s t a) in
      let s2 := primary_rule s1 t in
      let s3 := fallback_rule s2 t in
      finish_rule s3
  | _ => s
  end.

(** The result object of [summary()]; [drr = None] is [null]. *)
Record Summary : Type := mkSummary {
  strokes : nat;
  spm : Q;
  drr : option Q
}.

(** The first loop of [summary]: [i] runs over [0 .. length - 2] and keeps
    [catches[i + 1] - catches[i]] when it exceeds 0.1. *)
Fixpoint periods (cs : list Q) : list Q :=
  match cs with
  | c0 :: ((c1 :: _) as rest) =>
      let dt := c1 - c0 in
      if Qltb (1 # 10) dt then dt :: periods rest else periods rest
  | _ => []
  end.

(** The second loop: [n] is [i + 1], so the scan visits [i = n - 1] down to
    [0] and stops at the first index that passes both tests. *)
Fixpoint drr_scan (cs fs : list Q) (n : nat) : option Q :=
  match n with
  | O => None
  | S i =>
      match nth_error cs i, nth_error fs i, nth_error cs (S i) with
      | Some tC, Some tF, Some tN =>
          if Qltb tC tF && Qltb tF tN then
            let drive := tF - tC in
            let rec := tN - tF in
            if Qltb 0 drive && Qltb 0 rec then Some (drive / rec)
            else drr_scan cs fs i
          else drr_scan cs fs i
      | _, _, _ => drr_scan cs fs i
      end
  end.

(** [summary()] *)
Definition summary (s : StrokeState) : Summary :=
  let n := length (catches s) in
  if (2 <=? n)%nat then
    let ps := periods (catches s) in
    let spm_ :=
      match ps with
      | [] => 0
      | _ :: _ =>
          let avg := fold_left Qplus ps 0 / inject_Z (Z.of_nat (length ps)) in
          60 / avg
      end in
    mkSummary n spm_
      (drr_scan (catches s) (finishes s) (Nat.min (length (finishes s)) (n - 1)))
  else mkSummary n 0 None.

(** A session: calls of [update], interleaved with assignments to the public
    field [catchAngleMax] (the frame handler sets it before every update). *)
Inductive call : Type :=
| Update (t : Q) (angle : jsnum)
| SetCatchAngleMax (v : Q).

Definition apply_call (s : StrokeState) (c : call) : StrokeState :=
  match c with
  | Update t angle => update s t angle
  | SetCatchAngleMax v => set_catchAngleMax s v
  end.

Definition run (s : StrokeState) (cs : list call) : StrokeState :=
  fold_left apply_call cs s.

(** The timestamps of the [update] calls of a session, in call order. *)
Fixpoint call_times (cs : list call) : list Q :=
  match cs with
  | [] => []
  | Update t _ :: rest => t :: call_times rest
  | SetCatchAngleMax _ :: rest => call_times rest
  end.

End Detector.

(** ** Notions the statements about the detector use *)

Module DetectorSpec.
Import Detector.

(** Every timestamp is at most every later one. *)
Fixpoint nondecreasing (l : list Q) : Prop :=
  match l with
  | [] => True
  | x :: rest => (forall y, In y rest -> x <= y) /\ nondecreasing rest
  end.

(** Consecutive elements are more than [m] apart. *)
Fixpoint separated (m : Q) (l : list Q) : Prop :=
  match l with
  | x :: ((y :: _) as rest) => m < y - x /\ separated m rest
  | _ => True
  end.

(** Every element is strictly below every later one. *)
Fixpoint increasing (l : list Q) : Prop :=
  match l with
  | [] => True
  | x :: rest => (forall y, In y rest -> x < y) /\ increasing rest
  end.

(** [p] is a sample of [w] whose angle no sample of [w] exceeds. *)
Definition max_sample (p : AngleSample) (w : list AngleSample) : Prop :=
  In p w /\ forall q, In q w -> sample_a q <= sample_a p.

(** The timestamp of the largest sample at or after the last catch. *)
Definition peak_time (cs : list Q) (l : list AngleSample) : option Q :=
  match last_elem cs with
  | None => None
  | Some c =>
      match window_since c l with
      | [] => None
      | p0 :: rest => Some (sample_t (maxP p0 rest))
      end
  end.

(** The number of samples at or after the last catch. *)
Definition window_length (cs : list Q) (l : list AngleSample) : nat :=
  match last_elem cs with
  | None => 0
  | Some c => length (window_since c l)
  end.

Definition below_peak (fs cs : list Q) (l : list AngleSample) : Prop :=
  forall f pk, last_elem fs = Some f -> peak_time cs l = Some pk -> f <= pk.

Definition at_peak (fs cs : list Q) (l : list AngleSample) : Prop :=
  (3 <= window_length cs l)%nat ->
  exists f pk, last_elem fs = Some f /\ peak_time cs l = Some pk /\ f == pk.

(** The invariant of a session whose timestamps do not decrease: nothing
    recorded is later than [T], the last finish is not later than the peak
    of the current window, and it is that peak once the window has three
    samples. *)
Record tracked (s : StrokeState) (T : Q) : Prop := mkTracked {
  tr_angles : forall p, In p (angles s) -> sample_t p <= T;
  tr_catches : forall c, In c (catches s) -> c <= T;
  tr_finishes : forall f, In f (finishes s) -> f <= T;
  tr_below : below_peak (finishes s) (catches s) (angles s);
  tr_at : at_peak (finishes s) (catches s) (angles s)
}.

(** The differences of consecutive catches, in order. *)
Definition intervals (cs : list Q) : list Q :=
  map (fun p => snd p - fst p) (combine cs (tl cs)).

(** The intervals the stroke rate uses: those above 0.1 s. *)
Definition long_intervals (cs : list Q) : list Q :=
  filter (fun dt => Qltb (1 # 10) dt) (intervals cs).

Definition Qsum (l : list Q) : Q := fold_right Qplus 0 l.

Definition mean (l : list Q) : Q := Qsum l / inject_Z (Z.of_nat (length l)).

(** The triple at index [i] qualifies, and [r] is its drive/recovery ratio. *)
Definition ratio_at (cs fs : list Q) (i : nat) (r : Q) : Prop :=
  exists tC tF tN,
    nth_error cs i = Some tC /\ nth_error fs i = Some tF
    /\ nth_error cs (S i) = Some tN
    /\ tC < tF /\ tF < tN /\ 0 < tF - tC /\ 0 < tN - tF
    /\ r = (tF - tC) / (tN - tF).

Definition options_small : Options :=
  mkOptions (Some 110) (Some 1%Z) (Some (3 # 2)) (Some 1%Z) (Some 3%Z).

(** A session in which both minima of the trace become catches. *)
Definition session_two_strokes : list call :=
  [Update 0 (Fin 120); Update 1 (Fin 110); Update 2 (Fin 100);
   Update 3 (Fin 110); Update 4 (Fin 130); Update 5 (Fin 120);
   SetCatchAngleMax 105; Update 6 (Fin 100); Update 7 NaN;
   Update 8 (Fin 95); Update 9 (Fin 140)].

(** The first six calls of [session_two_strokes]: one catch, then the drive. *)
Definition session_one_stroke : list call :=
  [Update 0 (Fin 120); Update 1 (Fin 110); Update 2 (Fin 100);
   Update 3 (Fin 110); Update 4 (Fin 130); Update 5 (Fin 120)].

(** The first three calls: the third sample is the first catch. *)
Definition session_first_catch : list call :=
  [Update 0 (Fin 120); Update 1 (Fin 110); Update 2 (Fin 100)].

(** A state, set up through the public fields, in which the primary rule
    fires on the next sample. *)
Definition state_before_primary : StrokeState :=
  mkStrokeState 110 1 (1 # 2) 1 1
    [mkAngle 0 100; mkAngle 1 90] [mkDeriv 1 (-10)] [] [] 0.

End DetectorSpec.

(** ** The adaptive catch threshold of the frame handler *)

Module Threshold.
Import Detector.

Record KneeSample : Type := mkKnee { knee_t : Q; knee_angle : Q }.

(** The globals of the frame handler that the detection path reads and writes. *)
Record Handler : Type := mkHandler {
  kneeWindow : list KneeSample;
  autoCatch : bool;
  manualCatchThresh : Q;
  stroke : StrokeState
}.

Definition kneeWindowSec : Q := 8.

(** [while (kneeWindow.length && kneeWindow[0].t < tMin) kneeWindow.shift()] *)
Fixpoint shift_while (tMin : Q) (w : list KneeSample) : list KneeSample :=
  match w with
  | [] => []
  | k :: rest => if Qltb (knee_t k) tMin then shift_while tMin rest else w
  end.

(** [updateKneeWindow(t, angle)] *)
Definition updateKneeWindow (w : list KneeSample) (t : Q) (angle : jsnum)
    : list KneeSample :=
  match angle with
  | Fin a => shift_while (t - kneeWindowSec) (w ++ [mkKnee t a])
  | _ => w
  end.

(** The scan of [estimateCatchThreshold]: [None] stands for the initial
    [Infinity] of [minA] and [-Infinity] of [maxA]. *)
Definition scan_step (acc : option Q * option Q) (k : KneeSample)
    : option Q * option Q :=
  let a := knee_angle k in
  let minA := match fst acc with
              | None => Some a
              | Some m => if Qltb a m then Some a else Some m
              end in
  let maxA := match snd acc with
              | None => Some a
              | Some m => if Qltb m a then Some a else Some m
              end in
  (minA, maxA).

Definition scan (w : list KneeSample) : option Q * option Q :=
  fold_left scan_step w (None, None).

(** [estimateCatchThreshold()].  The last branch is the empty window, which
    the length test excludes; there the JavaScript arithmetic on the two
    infinities ends in the upper clamp. *)
Definition estimateCatchThreshold (w : list KneeSample) (manual : Q) : Q :=
  if (length w <? 10)%nat then manual
  else
    match scan w with
    | (Some minA, Some maxA) =>
        let range := Math_max 1 (maxA - minA) in
        let thr := minA + (35 # 100) * range in
        Math_max 70 (Math_min 130 thr)
    | _ => 130
    end.

(** The detection path of [onResults(ts, results)], from the knee angle on:
    [ts] is in milliseconds. *)
Definition onResults (h : Handler) (ts : Q) (kneeAngle : jsnum) : Handler :=
  let tSec := ts / 1000 in
  let w := updateKneeWindow (kneeWindow h) tSec kneeAngle in
  let thr := if autoCatch h
             then estimateCatchThreshold w (manualCatchThresh h)
             else manualCatchThresh h in
  mkHandler w (autoCatch h) (manualCatchThresh h)
    (update (set_catchAngleMax (stroke h) thr) tSec kneeAngle).

(** The threshold as the specification words it: the window minimum plus
    0.35 of the spread, clamped to [70, 130]. *)
Definition clamp (lo hi x : Q) : Q := Qmax lo (Qmin hi x).

Definition spec_threshold (windowMin windowMax : Q) : Q :=
  clamp 70 130 (windowMin + (35 # 100) * (windowMax - windowMin)).

(** What the code computes: the spread is floored at one degree. *)
Definition floored_threshold (windowMin windowMax : Q) : Q :=
  clamp 70 130 (windowMin + (35 # 100) * Qmax 1 (windowMax - windowMin)).

Definition is_min (m : Q) (l : list Q) : Prop :=
  In m l /\ forall x, In x l -> m <= x.

Definition is_max (m : Q) (l : list Q) : Prop :=
  In m l /\ forall x, In x l -> x <= m.

End Threshold.

(** ** The geometry kernel, over the real numbers *)

Module Geometry.
Local Open Scope R_scope.

Record Point : Type := mkPoint { x : R; y : R }.

(** [Math.hypot] *)
Definition hypot (u v : R) : R := sqrt (u * u + v * v).

(** [Math.atan2(v, u)] on finite arguments: the angle of the vector [(u, v)]
    against the positive x axis, in [(-PI, PI]]. *)
Definition atan2 (v u : R) : R :=
  if Rlt_dec 0 u then atan (v / u)
  else if Rlt_dec u 0 then
    (if Rle_dec 0 v then atan (v / u) + PI else atan (v / u) - PI)
  else if Rlt_dec 0 v then PI / 2
  else if Rlt_dec v 0 then - (PI / 2)
  else 0.

(** [Math.trunc] *)
Definition trunc (r : R) : Z :=
  if Rle_dec 0 r then Int_part r else (- Int_part (- r))%Z.

(** The remainder operator [%]: the result takes the sign of the dividend. *)
Definition js_rem (n d : R) : R := n - d * IZR (trunc (n / d)).

(** [angleAt(a, b, c)]; [None] is NaN. *)
Definition angleAt (a b c : Point) : option R :=
  let bax := x a - x b in
  let bay := y a - y b in
  let bcx := x c - x b in
  let bcy := y c - y b in
  let dot := bax * bcx + bay * bcy in
  let magBA := hypot bax bay in
  let magBC := hypot bcx bcy in
  if Req_dec_T magBA 0 then None
  else if Req_dec_T magBC 0 then None
  else
    let cosang := Rmax (-1) (Rmin 1 (dot / (magBA * magBC))) in
    Some (acos cosang * 180 / PI).

(** [angleToVertical(p1, p2)]; [None] is NaN. *)
Definition angleToVertical (p1 p2 : Point) : option R :=
  let dx := x p2 - x p1 in
  let dy := y p2 - y p1 in
  let mag := hypot dx dy in
  if Req_dec_T mag 0 then None
  else
    let theta := atan2 dy dx * 180 / PI in
    let diff := Rabs (-90 - theta) in
    let diff' := js_rem (diff + 180) 360 - 180 in
    Some (Rabs diff').

(** The length of the segment from [p] to [q] is zero. *)
Definition coincide (p q : Point) : Prop := x p = x q /\ y p = y q.

End Geometry.

(** ** Further notions, for the properties beyond the catalogued ones *)

Module MoreSpec.
Import Detector DetectorSpec.

(** The last [k] elements of a list (all of it when it is shorter). *)
Definition trailing {A : Type} (k : nat) (l : list A) : list A :=
  skipn (length l - k) l.

(** The samples a session hands to the detector with a finite angle. *)
Fixpoint finite_samples (cs : list call) : list AngleSample :=
  match cs with
  | [] => []
  | Update t (Fin a) :: rest => mkAngle t a :: finite_samples rest
  | _ :: rest => finite_samples rest
  end.

(** On a list of angles, newest first: the number of steps, counted back
    from the newest sample, in which the angle did not fall. *)
Fixpoint rising_run_rev (l : list Q) : Z :=
  match l with
  | a :: ((a0 :: _) as rest) =>
      if Qleb a0 a then (1 + rising_run_rev rest)%Z else 0%Z
  | _ => 0%Z
  end.

Definition rising_run (l : list Q) : Z := rising_run_rev (rev l).

(** The five settings of a detector. *)
Definition same_settings (s s' : StrokeState) : Prop :=
  catchAngleMax s' = catchAngleMax s
  /\ smooth s' = smooth s
  /\ minCatchIntervalSec s' = minCatchIntervalSec s
  /\ confirmFrames s' = confirmFrames s
  /\ windowSize s' = windowSize s.

(** The derivative history follows the angle history, and the streak counts
    the latest steps in which the angle did not fall. *)
Record in_step (s : StrokeState) : Prop := mkInStep {
  st_length : length (deriv s) = pred (length (angles s));
  st_times : map deriv_t (deriv s) = tl (map sample_t (angles s));
  st_streak : _posStreak s = rising_run (map sample_a (angles s))
}.

(** The threshold a session leaves in [catchAngleMax]: the last value
    assigned, or [v0] when the session assigns none. *)
Fixpoint last_threshold (cs : list call) (v0 : Q) : Q :=
  match cs with
  | [] => v0
  | SetCatchAngleMax v :: rest => last_threshold rest v
  | Update _ _ :: rest => last_threshold rest v0
  end.

(** Every catch and every finish is the time of a recorded sample, and every
    finish has a catch at or before it. *)
Definition anchored (s : StrokeState) : Prop :=
  (forall c, In c (catches s) -> In c (map sample_t (angles s)))
  /\ (forall f, In f (finishes s) ->
        In f (map sample_t (angles s))
        /\ exists c, In c (catches s) /\ c <= f).

(** [q] to the power [n]. *)
Fixpoint Qpow (q : Q) (n : nat) : Q :=
  match n with
  | O => 1
  | S k => q * Qpow q k
  end.

End MoreSpec.

(** ** The landmark smoother of the frame handler *)

Module Smoother.

Inductive Joint : Type := Shoulder | Hip | Knee | Ankle | Wrist.

Definition Joint_eqb (j k : Joint) : bool :=
  match j, k with
  | Shoulder, Shoulder | Hip, Hip | Knee, Knee | Ankle, Ankle
  | Wrist, Wrist => true
  | _, _ => false
  end.

(** The two coordinates of a landmark that the smoother reads and writes. *)
Record Landmark : Type := mkLandmark { lm_x : Q; lm_y : Q }.

(** The object [lmPrev]: per joint name, [null] or the last smoothed point. *)
Definition LmPrev : Type := Joint -> option Landmark.

Definition lmPrev_init : LmPrev := fun _ => None.

Definition lmPrev_set (st : LmPrev) (name : Joint) (v : Landmark) : LmPrev :=
  fun k => if Joint_eqb k name then Some v else st k.

(** [Math.max(0, Math.min(0.9, landmarkAlpha || 0))]: NaN and 0 are falsy. *)
Definition effective_alpha (landmarkAlpha : jsnum) : Q :=
  match landmarkAlpha with
  | Fin q => Math_max 0 (Math_min (9 # 10) q)
  | NaN => 0
  | PosInf => 9 # 10
  | NegInf => 0
  end.

(** [smoothLm(name, p)] with the global [landmarkAlpha]; [p = None] is a
    missing landmark.  Returns the new [lmPrev] and the point handed on. *)
Definition smoothLm (st : LmPrev) (landmarkAlpha : jsnum) (name : Joint)
    (p : option Landmark) : LmPrev * option Landmark :=
  match p with
  | None => (st, None)
  | Some p =>
      match st name with
      | None => (lmPrev_set st name (mkLandmark (lm_x p) (lm_y p)), Some p)
      | Some prev =>
          let a := effective_alpha landmarkAlpha in
          let x := a * lm_x p + (1 - a) * lm_x prev in
          let y := a * lm_y p + (1 - a) * lm_y prev in
          (lmPrev_set st name (mkLandmark x y), Some (mkLandmark x y))
      end
  end.

(** One joint fed frame after frame: the points handed on, in order. *)
Fixpoint smooth_frames (st : LmPrev) (landmarkAlpha : jsnum) (name : Joint)
    (ps : list Landmark) : LmPrev * list Landmark :=
  match ps with
  | [] => (st, [])
  | p :: rest =>
      let '(st1, out) := smoothLm st landmarkAlpha name (Some p) in
      let '(st2, outs) := smooth_frames st1 landmarkAlpha name rest in
      (st2, match out with
            | Some q => q :: outs
            | None => outs
            end)
  end.

(** The smoother after one knee landmark at the centre of the frame. *)
Definition smoother_after_seed : LmPrev :=
  fst (smoothLm lmPrev_init (Fin (1 # 5)) Knee (Some (mkLandmark (1 # 2) (1 # 2)))).

End Smoother.

(** ** Sessions of the frame handler *)

Module Session.
Import Detector Threshold.

(** What happens to the handler's detection state: a frame arrives, the
    operator toggles adaptive mode or moves the manual threshold, or a new
    video source resets the detector. *)
Inductive event : Type :=
| Frame (ts : Q) (kneeAngle : jsnum)
| SetAutoCatch (b : bool)
| SetManualCatchThresh (v : Q)
| ResetState.

(** [resetState()]: a fresh detector; the knee window is a separate global
    and stays. *)
Definition resetState (h : Handler) : Handler :=
  mkHandler (kneeWindow h) (autoCatch h) (manualCatchThresh h)
    (new_StrokeState (mkOptions (Some 110) (Some 5%Z) None None None)).

Definition handle (h : Handler) (e : event) : Handler :=
  match e with
  | Frame ts kneeAngle => onResults h ts kneeAngle
  | SetAutoCatch b =>
      mkHandler (kneeWindow h) b (manualCatchThresh h) (stroke h)
  | SetManualCatchThresh v =>
      mkHandler (kneeWindow h) (autoCatch h) v (stroke h)
  | ResetState => resetState h
  end.

Definition handle_all (h : Handler) (es : list event) : Handler :=
  fold_left handle es h.

End Session.

(** ** The letterbox transform of the overlay *)

Module Letterbox.

Record ContentRect : Type := mkContentRect {
  ox : Q; oy : Q; s : Q; vw : Q; vh : Q; dw : Q; dh : Q
}.

(** [a || b] on numbers: [a] unless it is zero. *)
Definition or_else (a b : Q) : Q := if Qeq_bool a 0 then b else a.

(** [getContentRect()], from the canvas size and the video's intrinsic
    size (zero while no frame is loaded). *)
Definition getContentRect (cw ch videoWidth videoHeight : Q) : ContentRect :=
  let vw := or_else videoWidth cw in
  let vh := or_else videoHeight ch in
  let s := Math_min (cw / vw) (ch / vh) in
  let dw := vw * s in
  let dh := vh * s in
  let ox := (cw - dw) / 2 in
  let oy := (ch - dh) / 2 in
  mkContentRect ox oy s vw vh dw dh.

(** The point map of [adjustNormalizedLandmarksForCanvas], on the two
    coordinates it changes. *)
Definition adjust (cw ch videoWidth videoHeight : Q) (p : Q * Q) : Q * Q :=
  let r := getContentRect cw ch videoWidth videoHeight in
  ((ox r + (fst p * vw r) * s r) / cw,
   (oy r + (snd p * vh r) * s r) / ch).

End Letterbox.

(** ** The constructor on arbitrary numbers *)

Module Construction.
Import Detector.

(** [Math.max(x, y)] on any two numbers: NaN if either is NaN. *)
Definition js_max (x y : jsnum) : jsnum :=
  match x, y with
  | NaN, _ => NaN
  | _, NaN => NaN
  | PosInf, _ => PosInf
  | _, PosInf => PosInf
  | NegInf, z => z
  | z, NegInf => z
  | Fin a, Fin b => Fin (Math_max a b)
  end.

(** The options object with any number under each key. *)
Record RawOptions : Type := mkRawOptions {
  raw_catchAngleMax : option jsnum;
  raw_smooth : option jsnum;
  raw_minCatchIntervalSec : option jsnum;
  raw_confirmFrames : option jsnum;
  raw_windowSize : option jsnum
}.

(** The five settings the constructor stores. *)
Record Settings : Type := mkSettings {
  stored_catchAngleMax : jsnum;
  stored_smooth : jsnum;
  stored_minCatchIntervalSec : jsnum;
  stored_confirmFrames : jsnum;
  stored_windowSize : jsnum
}.

(** The five assignments of the constructor, lines 143 to 147. *)
Definition constructor_settings (o : RawOptions) : Settings :=
  {| stored_catchAngleMax := default (Fin 110) (raw_catchAngleMax o);
     stored_smooth := js_max (Fin 1) (default (Fin 5) (raw_smooth o));
     stored_minCatchIntervalSec :=
       default (Fin (9 # 10)) (raw_minCatchIntervalSec o);
     stored_confirmFrames :=
       js_max (Fin 1) (default (Fin 2) (raw_confirmFrames o));
     stored_windowSize :=
       js_max (Fin 3) (default (Fin 9) (raw_windowSize o)) |}.

(** The options and the settings of the integer model, as numbers. *)
Definition raw_of (o : Options) : RawOptions :=
  {| raw_catchAngleMax := option_map Fin (opt_catchAngleMax o);
     raw_smooth := option_map (fun z => Fin (inject_Z z)) (opt_smooth o);
     raw_minCatchIntervalSec := option_map Fin (opt_minCatchIntervalSec o);
     raw_confirmFrames :=
       option_map (fun z => Fin (inject_Z z)) (opt_confirmFrames o);
     raw_windowSize :=
       option_map (fun z => Fin (inject_Z z)) (opt_windowSize o) |}.

Definition settings_of (s : StrokeState) : Settings :=
  {| stored_catchAngleMax := Fin (catchAngleMax s);
     stored_smooth := Fin (inject_Z (smooth s));
     stored_minCatchIntervalSec := Fin (minCatchIntervalSec s);
     stored_confirmFrames := Fin (inject_Z (confirmFrames s));
     stored_windowSize := Fin (inject_Z (windowSize s)) |}.

(** The order of the numbers; NaN compares with nothing. *)
Definition jle (x y : jsnum) : Prop :=
  match x, y with
  | NaN, _ => False
  | _, NaN => False
  | NegInf, _ => True
  | _, PosInf => True
  | Fin a, Fin b => a <= b
  | _, _ => False
  end.

Definition jlt (x y : jsnum) : Prop :=
  match x, y with
  | NaN, _ => False
  | _, NaN => False
  | PosInf, _ => False
  | _, NegInf => False
  | Fin a, Fin b => a < b
  | _, _ => True
  end.

(** [stored] is [given] clamped from below at [lo]: a value at or above
    [lo] is kept, a value below it becomes [lo], and NaN stays NaN. *)
Definition clamped_below (lo : Q) (given stored : jsnum) : Prop :=
  match given with
  | NaN => stored = NaN
  | _ =>
      jle (Fin lo) stored
      /\ (jle (Fin lo) given -> stored = given)
      /\ (jlt given (Fin lo) -> stored = Fin lo)
  end.

End Construction.

(** ** The knee samples of a session, by time *)

Module SessionSpec.
Import Detector Threshold Session.

(** The timestamps, in milliseconds, of the frames of a session. *)
Fixpoint frame_times (es : list event) : list Q :=
  match es with
  | [] => []
  | Frame ts _ :: rest => ts :: frame_times rest
  | _ :: rest => frame_times rest
  end.

(** The knee samples of the frames that carried a finite angle, in seconds. *)
Fixpoint knee_samples (es : list event) : list KneeSample :=
  match es with
  | [] => []
  | Frame ts (Fin a) :: rest => mkKnee (ts / 1000) a :: knee_samples rest
  | _ :: rest => knee_samples rest
  end.

(** The samples within the trailing [kneeWindowSec] seconds before [t]. *)
Definition trailing_window (t : Q) (l : list KneeSample) : list KneeSample :=
  filter (fun k => Qleb (t - kneeWindowSec) (knee_t k)) l.

(** The buffer [w] is the trailing window of the samples of [es], taken at
    the time of one of its frames (or both are empty). *)
Definition window_tracks (es : list event) (w : list KneeSample) : Prop :=
  (knee_samples es = [] /\ w = [])
  \/ exists t0, In t0 (frame_times es)
       /\ w = trailing_window (t0 / 1000) (knee_samples es).

(** A handler as the page loads it: the knee window is empty. *)
Definition fresh_handler (auto : bool) (manual : Q) : Handler :=
  mkHandler [] auto manual
    (new_StrokeState (mkOptions (Some 110) (Some 5%Z) None None None)).

(** Nine frames, one every 100 ms, of a knee held at 100 degrees. *)
Definition still_frames : list event :=
  [Frame 0 (Fin 100); Frame 100 (Fin 100); Frame 200 (Fin 100);
   Frame 300 (Fin 100); Frame 400 (Fin 100); Frame 500 (Fin 100);
   Frame 600 (Fin 100); Frame 700 (Fin 100); Frame 800 (Fin 100)].

(** Nine frames of a knee that opens by one degree per frame, with a
    dropped landmark in between. *)
Definition opening_frames : list event :=
  [Frame 0 (Fin 100); Frame 100 (Fin 101); Frame 200 (Fin 102);
   Frame 250 NaN; Frame 300 (Fin 103); Frame 400 (Fin 104);
   Frame 500 (Fin 105); Frame 600 (Fin 106); Frame 700 (Fin 107);
   Frame 800 (Fin 108)].

End SessionSpec.
Lemma Qleb_true (x y : Q) : Qleb x y = true <-> x <= y.
Proof. apply Qle_bool_iff. Qed.

Lemma Qleb_false (x y : Q) : Qleb x y = false <-> y < x.
Proof.
  unfold Qleb. split; intro H.
  - apply Qnot_le_lt. intro Hle. apply Qle_bool_iff in Hle. congruence.
  - destruct (Qle_bool x y) eqn:E; auto.
    apply Qle_bool_iff in E. exfalso. apply (Qlt_not_le _ _ H E).
Qed.

Lemma Qltb_true (x y : Q) : Qltb x y = true <-> x < y.
Proof.
  unfold Qltb. rewrite negb_true_iff. apply Qleb_false.
Qed.

Lemma Qltb_false (x y : Q) : Qltb x y = false <-> y <= x.
Proof.
  unfold Qltb. rewrite negb_false_iff. apply Qleb_true.
Qed.

Lemma last_elem_app {A : Type} (l : list A) (x : A) :
  last_elem (l ++ [x]) = Some x.
Proof.
  unfold last_elem. rewrite length_app. simpl.
  replace (length l + 1 - 1)%nat with (length l) by lia.
  rewrite nth_error_app2 by lia.
  now rewrite Nat.sub_diag.
Qed.

Lemma last_elem_nil {A : Type} : last_elem (@nil A) = None.
Proof. reflexivity. Qed.

Lemma last_elem_None {A : Type} (l : list A) :
  last_elem l = None -> l = [].
Proof.
  destruct l as [|x l]; auto.
  unfold last_elem. intro H. apply nth_error_None in H. simpl in H. lia.
Qed.

Lemma last_elem_cons {A : Type} (x : A) (l : list A) :
  l <> [] -> last_elem (x :: l) = last_elem l.
Proof.
  destruct l as [|y l]; [congruence|intros _].
  unfold last_elem. simpl. now rewrite Nat.sub_0_r.
Qed.

Lemma last_elem_inv {A : Type} (l : list A) (x : A) :
  last_elem l = Some x -> exists l', l = l' ++ [x].
Proof.
  destruct l as [|y l] using rev_ind.
  - discriminate.
  - rewrite last_elem_app. intros [= ->]. now exists l.
Qed.

Lemma last_elem_In {A : Type} (l : list A) (x : A) :
  last_elem l = Some x -> In x l.
Proof.
  intro H. apply last_elem_inv in H as [l' ->].
  apply in_or_app. right. now left.
Qed.

(** Linear arithmetic over [Q]; plain [lra] is the one over [R]. *)
Ltac qlra := Lqa.lra.

(** * Facts about the detector *)

Module DetectorFacts.
Import Detector DetectorSpec.

(** ** What each block of [update] touches *)

Lemma push_sample_catches s t a : catches (push_sample s t a) = catches s.
Proof. unfold push_sample. now destruct (last_elem (angles s)). Qed.

Lemma push_sample_finishes s t a : finishes (push_sample s t a) = finishes s.
Proof. unfold push_sample. now destruct (last_elem (angles s)). Qed.

Lemma push_sample_angles s t a :
  angles (push_sample s t a) = angles s ++ [mkAngle t a].
Proof. unfold push_sample. now destruct (last_elem (angles s)). Qed.

Lemma push_sample_interval s t a :
  minCatchIntervalSec (push_sample s t a) = minCatchIntervalSec s.
Proof. unfold push_sample. now destruct (last_elem (angles s)). Qed.

Lemma update_streak_catches s : catches (update_streak s) = catches s.
Proof. unfold update_streak. now destruct (last_elem (deriv s)). Qed.

Lemma update_streak_finishes s : finishes (update_streak s) = finishes s.
Proof. unfold update_streak. now destruct (last_elem (deriv s)). Qed.

Lemma update_streak_angles s : angles (update_streak s) = angles s.
Proof. unfold update_streak. now destruct (last_elem (deriv s)). Qed.

Lemma update_streak_interval s :
  minCatchIntervalSec (update_streak s) = minCatchIntervalSec s.
Proof. unfold update_streak. now destruct (last_elem (deriv s)). Qed.

Lemma primary_rule_finishes s t : finishes (primary_rule s t) = finishes s.
Proof. unfold primary_rule. now destruct (primary_fires s t). Qed.

Lemma primary_rule_angles s t : angles (primary_rule s t) = angles s.
Proof. unfold primary_rule. now destruct (primary_fires s t). Qed.

Lemma primary_rule_interval s t :
  minCatchIntervalSec (primary_rule s t) = minCatchIntervalSec s.
Proof. unfold primary_rule. now destruct (primary_fires s t). Qed.

Lemma fallback_rule_finishes s t : finishes (fallback_rule s t) = finishes s.
Proof. unfold fallback_rule. now destruct (fallback_fires s t). Qed.

Lemma fallback_rule_angles s t : angles (fallback_rule s t) = angles s.
Proof. unfold fallback_rule. now destruct (fallback_fires s t). Qed.

Lemma fallback_rule_interval s t :
  minCatchIntervalSec (fallback_rule s t) = minCatchIntervalSec s.
Proof. unfold fallback_rule. now destruct (fallback_fires s t). Qed.

Ltac finish_cases s :=
  unfold finish_rule;
  destruct (last_elem (catches s)); try reflexivity;
  destruct (3 <=? length _)%nat; try reflexivity;
  destruct (window_since _ _); try reflexivity;
  destruct (last_elem (finishes s)); try reflexivity;
  destruct (Qltb _ _); reflexivity.

Lemma finish_rule_catches s : catches (finish_rule s) = catches s.
Proof. finish_cases s. Qed.

Lemma finish_rule_angles s : angles (finish_rule s) = angles s.
Proof. finish_cases s. Qed.

Lemma finish_rule_interval s :
  minCatchIntervalSec (finish_rule s) = minCatchIntervalSec s.
Proof. finish_cases s. Qed.

Lemma update_interval s t angle :
  minCatchIntervalSec (update s t angle) = minCatchIntervalSec s.
Proof.
  destruct angle; try reflexivity. unfold update.
  now rewrite finish_rule_interval, fallback_rule_interval,
    primary_rule_interval, update_streak_interval, push_sample_interval.
Qed.

Lemma update_catchAngleMax s t angle :
  catchAngleMax (update s t angle) = catchAngleMax s.
Proof.
  destruct angle; try reflexivity. unfold update.
  unfold finish_rule. set (s3 := fallback_rule _ t).
  assert (H3 : catchAngleMax s3 = catchAngleMax s).
  { unfold s3, fallback_rule, primary_rule, update_streak, push_sample.
    destruct (last_elem (angles s)); simpl;
      destruct (last_elem _); simpl;
      destruct (primary_fires _ t); destruct (fallback_fires _ t);
      reflexivity. }
  rewrite <- H3.
  destruct (last_elem (catches s3)); try reflexivity.
  destruct (3 <=? length _)%nat; try reflexivity.
  destruct (window_since _ _); try reflexivity.
  destruct (last_elem (finishes s3)); try reflexivity.
  destruct (Qltb _ _); reflexivity.
Qed.

Lemma apply_call_interval s c :
  minCatchIntervalSec (apply_call s c) = minCatchIntervalSec s.
Proof. destruct c; [apply update_interval | reflexivity]. Qed.

Lemma run_interval cs : forall s,
  minCatchIntervalSec (run s cs) = minCatchIntervalSec s.
Proof.
  induction cs as [|c cs IH]; intro s; [reflexivity|].
  simpl. now rewrite IH, apply_call_interval.
Qed.

(** ** The two catch rules *)

(** A rule that fires saw the refractory test pass. *)
Lemma primary_fires_ok s t : primary_fires s t = true -> lastCatchOk s t = true.
Proof.
  unfold primary_fires.
  destruct (2 <=? length (deriv s))%nat; [|discriminate].
  destruct (nth_error _ _); [|discriminate].
  destruct (nth_error _ _); [|discriminate].
  rewrite !andb_true_iff. tauto.
Qed.

Lemma fallback_fires_ok s t : fallback_fires s t = true -> lastCatchOk s t = true.
Proof. unfold fallback_fires. rewrite !andb_true_iff. tauto. Qed.

(** Right after a catch at [t] the refractory test at [t] fails. *)
Lemma lastCatchOk_after_push s t :
  0 <= minCatchIntervalSec s ->
  lastCatchOk (set_catches s (catches s ++ [t])) t = false.
Proof.
  intro Hm. unfold lastCatchOk. simpl. rewrite last_elem_app.
  apply Qltb_false. now setoid_replace (t - t) with 0 by ring.
Qed.

Lemma fallback_after_primary s t :
  0 <= minCatchIntervalSec s ->
  primary_fires s t = true ->
  fallback_fires (primary_rule s t) t = false.
Proof.
  intros Hm Hp. unfold primary_rule. rewrite Hp.
  unfold fallback_fires. rewrite (lastCatchOk_after_push s t Hm).
  now rewrite andb_false_r.
Qed.

(** The catches a call appends: nothing, or the call's timestamp once it
    passed the refractory test against the last catch before the call. *)
Lemma update_catches s t angle :
  0 <= minCatchIntervalSec s ->
  catches (update s t angle) = catches s
  \/ (catches (update s t angle) = catches s ++ [t]
      /\ match last_elem (catches s) with
         | None => True
         | Some c => minCatchIntervalSec s < t - c
         end).
Proof.
  intro Hm. destruct angle as [a| | |]; try (now left).
  unfold update. rewrite finish_rule_catches.
  set (s1 := update_streak (push_sample s t a)).
  assert (Hc1 : catches s1 = catches s)
    by (unfold s1; now rewrite update_streak_catches, push_sample_catches).
  assert (Hm1 : minCatchIntervalSec s1 = minCatchIntervalSec s)
    by (unfold s1; now rewrite update_streak_interval, push_sample_interval).
  assert (Hok : lastCatchOk s1 t = true ->
                match last_elem (catches s) with
                | None => True
                | Some c => minCatchIntervalSec s < t - c
                end).
  { unfold lastCatchOk. rewrite Hc1, Hm1.
    destruct (last_elem (catches s)); [apply Qltb_true | trivial]. }
  destruct (primary_fires s1 t) eqn:Hp.
  - right. unfold fallback_rule.
    rewrite fallback_after_primary by (rewrite ?Hm1; auto).
    unfold primary_rule. rewrite Hp. simpl. rewrite Hc1.
    split; [reflexivity|]. apply Hok. now apply primary_fires_ok.
  - unfold primary_rule at 1. rewrite Hp.
    unfold fallback_rule, primary_rule. rewrite Hp.
    destruct (fallback_fires s1 t) eqn:Hf.
    + right. simpl. rewrite Hc1. split; [reflexivity|].
      apply Hok. now apply fallback_fires_ok.
    + left. exact Hc1.
Qed.

(** ** Separation of the catch list *)

Lemma separated_snoc m l t :
  separated m l ->
  match last_elem l with
  | None => True
  | Some c => m < t - c
  end ->
  separated m (l ++ [t]).
Proof.
  induction l as [|x l IH]; intros Hs Hl; [exact I|].
  destruct l as [|y l].
  - simpl in *. unfold last_elem in Hl. simpl in Hl. auto.
  - rewrite last_elem_cons in Hl by discriminate.
    destruct Hs as [Hxy Hs]. simpl. split; [exact Hxy|].
    apply IH; assumption.
Qed.

Lemma separated_head_lt m x l :
  0 <= m -> separated m (x :: l) -> forall y, In y l -> x < y.
Proof.
  intros Hm. revert x.
  induction l as [|z l IH]; intros x Hs y Hy; [contradiction|].
  destruct Hs as [Hxz Hs].
  assert (Hlt : x < z) by qlra.
  destruct Hy as [<-|Hy]; [exact Hlt|].
  apply Qlt_trans with z; [exact Hlt|]. now apply IH.
Qed.

Lemma separated_increasing m l :
  0 <= m -> separated m l -> increasing l.
Proof.
  intro Hm. induction l as [|x l IH]; intro Hs; [exact I|].
  split.
  - now apply separated_head_lt with m.
  - apply IH. destruct l; [exact I | apply Hs].
Qed.

Lemma update_separated s t angle :
  0 <= minCatchIntervalSec s ->
  separated (minCatchIntervalSec s) (catches s) ->
  separated (minCatchIntervalSec s) (catches (update s t angle)).
Proof.
  intros Hm Hs.
  destruct (update_catches s t angle Hm) as [-> | [-> Hl]]; [exact Hs|].
  now apply separated_snoc.
Qed.

Lemma run_separated cs : forall s,
  0 <= minCatchIntervalSec s ->
  separated (minCatchIntervalSec s) (catches s) ->
  separated (minCatchIntervalSec s) (catches (run s cs)).
Proof.
  induction cs as [|c cs IH]; intros s Hm Hs; [exact Hs|].
  simpl. rewrite <- (apply_call_interval s c).
  apply IH; rewrite apply_call_interval; [exact Hm|].
  destruct c as [t angle|v]; [now apply update_separated | exact Hs].
Qed.

(** C1.  In every session on a fresh detector whose [minCatchIntervalSec] is
    positive and whose [update] calls carry non-decreasing timestamps, after
    any number [n] of calls the catch list is strictly increasing and any two
    consecutive catches are more than [minCatchIntervalSec] apart.  The list
    collects the catches of both rules, so the bound covers a primary catch
    followed by a fallback catch and the other way round. *)
Theorem catches_increasing_and_separated
    (o : Options) (cs : list call) (n : nat) :
  0 < minCatchIntervalSec (new_StrokeState o) ->
  nondecreasing (call_times cs) ->
  let s := run (new_StrokeState o) (firstn n cs) in
  increasing (catches s)
  /\ separated (minCatchIntervalSec (new_StrokeState o)) (catches s).
Proof.
  intros Hm _ s.
  assert (Hsep : separated (minCatchIntervalSec (new_StrokeState o)) (catches s)).
  { unfold s. apply run_separated; [qlra | exact I]. }
  split; [|exact Hsep].
  apply separated_increasing with (minCatchIntervalSec (new_StrokeState o));
    [qlra | exact Hsep].
Qed.

(** Settles [nondecreasing] on a list of numerals. *)
Ltac concrete_nondecreasing :=
  simpl; repeat split; intros ? Hy; simpl in Hy;
  repeat (destruct Hy as [<-|Hy]; [discriminate|]); contradiction.

Lemma catches_increasing_and_separated_witness :
  catches (run (new_StrokeState options_small) session_two_strokes) = [2; 6; 8]
  /\ increasing [2; 6; 8]
  /\ separated (3 # 2) [2; 6; 8].
Proof.
  split; [vm_compute; reflexivity|].
  apply (catches_increasing_and_separated options_small session_two_strokes 11).
  - reflexivity.
  - concrete_nondecreasing.
Defined.

(** C10.  For every detector state whose [minCatchIntervalSec] is positive,
    one call of [update] leaves the catch list as it is or appends the
    call's timestamp exactly once; and when the primary rule fires, the
    fallback rule that runs after it in the same call does not: its
    refractory test compares the timestamp with the catch just appended. *)
Theorem update_appends_at_most_one_catch
    (s : StrokeState) (t : Q) (angle : jsnum) :
  0 < minCatchIntervalSec s ->
  (catches (update s t angle) = catches s
   \/ catches (update s t angle) = catches s ++ [t])
  /\ (forall a, angle = Fin a ->
      let s1 := update_streak (push_sample s t a) in
      primary_fires s1 t = true ->
      lastCatchOk (primary_rule s1 t) t = false
      /\ fallback_fires (primary_rule s1 t) t = false
      /\ catches (update s t angle) = catches s ++ [t]).
Proof.
  intro Hm. split.
  - destruct (update_catches s t angle) as [H | [H _]]; [qlra | now left | now right].
  - intros a -> s1 Hp.
    assert (Hm1 : 0 <= minCatchIntervalSec s1).
    { unfold s1. rewrite update_streak_interval, push_sample_interval. qlra. }
    split; [|split].
    + unfold primary_rule. rewrite Hp. now apply lastCatchOk_after_push.
    + now apply fallback_after_primary.
    + unfold update. fold s1. rewrite finish_rule_catches.
      unfold fallback_rule. rewrite fallback_after_primary by assumption.
      unfold primary_rule. rewrite Hp. simpl.
      unfold s1. now rewrite update_streak_catches, push_sample_catches.
Qed.

Lemma update_appends_at_most_one_catch_witness :
  primary_fires
    (update_streak (push_sample state_before_primary 2 95)) 2 = true
  /\ catches (update state_before_primary 2 (Fin 95)) = [2].
Proof.
  split; [vm_compute; reflexivity|].
  destruct (update_appends_at_most_one_catch state_before_primary 2 (Fin 95))
    as [_ H]; [reflexivity|].
  destruct (H 95 eq_refl) as (_ & _ & Hc); [vm_compute; reflexivity|].
  exact Hc.
Defined.

(** C7.  A call of [update] whose angle is not a finite number (NaN or an
    infinity) returns the state it was given: the angle history, the
    derivative history, the positive streak, the catch list and the finish
    list are the ones before the call. *)
Theorem update_drops_nonfinite (s : StrokeState) (t : Q) (angle : jsnum) :
  isFinite angle = false ->
  update s t angle = s
  /\ angles (update s t angle) = angles s
  /\ deriv (update s t angle) = deriv s
  /\ _posStreak (update s t angle) = _posStreak s
  /\ catches (update s t angle) = catches s
  /\ finishes (update s t angle) = finishes s.
Proof.
  destruct angle; [discriminate| | |]; intros _; repeat split; reflexivity.
Qed.

Lemma update_drops_nonfinite_witness :
  update (run (new_StrokeState options_small) session_two_strokes) 10 NaN
  = run (new_StrokeState options_small) session_two_strokes.
Proof.
  apply (update_drops_nonfinite
           (run (new_StrokeState options_small) session_two_strokes) 10 NaN).
  reflexivity.
Defined.

(** ** The primary rule against the local-minimum test

    The primary rule asks for a non-negative last derivative (the new sample
    is not below the previous one) and for [_isLocalMin] (the new sample is
    strictly below every other sample of the window).  As soon as the window
    spans two samples the two cannot hold together, so in a detector built by
    the constructor every catch comes from the fallback rule. *)

Lemma localMin_scan_before_last w p0 x :
  sample_a p0 <= sample_a x ->
  forall i minA minIdx,
    (minIdx < i + Z.of_nat (length w) + 1)%Z ->
    (localMin_scan (w ++ [p0; x]) i minA minIdx
     < i + Z.of_nat (length w) + 1)%Z.
Proof.
  intro Hle. induction w as [|y w IH]; intros i minA minIdx Hidx.
  - simpl in *.
    destruct minA as [m|].
    + destruct (Qltb (sample_a p0) m) eqn:E0.
      * assert (E1 : Qltb (sample_a x) (sample_a p0) = false)
          by now apply Qltb_false.
        rewrite E1. clear - Hidx. lia.
      * apply Qltb_false in E0.
        assert (E1 : Qltb (sample_a x) m = false)
          by (apply Qltb_false; qlra).
        rewrite E1. clear - Hidx. lia.
    + assert (E1 : Qltb (sample_a x) (sample_a p0) = false)
        by now apply Qltb_false.
      rewrite E1. clear - Hidx. lia.
  - cbn [app localMin_scan length].
    replace (i + Z.of_nat (S (length w)) + 1)%Z
      with ((i + 1) + Z.of_nat (length w) + 1)%Z by lia.
    destruct (match minA with
              | Some m => Qltb (sample_a y) m
              | None => true
              end); apply IH; clear - Hidx; cbn [length] in Hidx; lia.
Qed.

Lemma nonneg_slope a a0 dt :
  0 < dt -> Qleb 0 ((a - a0) / dt) = true -> a0 <= a.
Proof.
  intros Hdt H. apply Qleb_true in H.
  assert (Hmul : 0 <= (a - a0) / dt * dt) by (apply Qmult_le_0_compat; qlra).
  rewrite Qmult_comm, Qmult_div_r in Hmul by qlra. qlra.
Qed.

Lemma Math_max_floor_pos x : 0 < Math_max (1 # 1000000) x.
Proof.
  unfold Math_max. destruct (Qleb (1 # 1000000) x) eqn:E.
  - apply Qleb_true in E. qlra.
  - reflexivity.
Qed.

Lemma primary_never_fires s t a :
  (2 <= windowSize s)%Z ->
  primary_fires (update_streak (push_sample s t a)) t = false.
Proof.
  intro Hws.
  set (s0 := push_sample s t a). set (s1 := update_streak s0).
  assert (Hang : angles s1 = angles s ++ [mkAngle t a])
    by (unfold s1, s0; now rewrite update_streak_angles, push_sample_angles).
  assert (Hwin : windowSize s1 = windowSize s).
  { unfold s1, s0, update_streak, push_sample.
    destruct (last_elem (angles s)); simpl; destruct (last_elem _);
      reflexivity. }
  assert (Hder : deriv s1 = deriv s0).
  { unfold s1, update_streak. destruct (last_elem (deriv s0)); reflexivity. }
  unfold primary_fires.
  destruct (2 <=? length (deriv s1))%nat; [|reflexivity].
  destruct (nth_error (deriv s1) (length (deriv s1) - 2)) as [dPrev|];
    [|reflexivity].
  destruct (nth_error (deriv s1) (length (deriv s1) - 1)) as [dNow|] eqn:ENow;
    [|reflexivity].
  destruct (Qleb 0 (deriv_d dNow)) eqn:Epos;
    [|now rewrite !andb_false_r].
  assert (Hmin : _isLocalMin s1 = false); [|now rewrite Hmin, !andb_false_r].
  unfold _isLocalMin. rewrite Hang, Hwin, length_app. simpl length.
  destruct (Z.of_nat (length (angles s) + 1) <? windowSize s)%Z eqn:Elen;
    [reflexivity|].
  apply Z.ltb_ge in Elen.
  destruct (last_elem (angles s)) as [p0|] eqn:Elast.
  2:{ apply last_elem_None in Elast. rewrite Elast in Elen.
      simpl in Elen. lia. }
  destruct (last_elem_inv _ _ Elast) as [l Hl].
  (* the derivative pushed by this call compares the new sample with [p0] *)
  assert (Hd : deriv_d dNow
               = (a - sample_a p0) / Math_max (1 # 1000000) (t - sample_t p0)).
  { fold (last_elem (deriv s1)) in ENow. rewrite Hder in ENow.
    unfold s0, push_sample in ENow. rewrite Elast in ENow. simpl in ENow.
    rewrite last_elem_app in ENow. now injection ENow as <-. }
  rewrite Hd in Epos.
  apply nonneg_slope in Epos; [|apply Math_max_floor_pos].
  rewrite Hl, length_app. simpl length.
  set (n := length l).
  set (start := Z.max 0 (Z.of_nat (n + 1 + 1) - 1 - windowSize s + 1)).
  assert (Hstart : (0 <= start <= Z.of_nat n)%Z) by (unfold start; lia).
  rewrite <- app_assoc. simpl app.
  rewrite skipn_app.
  replace (Z.to_nat start - length l)%nat with 0%nat by (fold n; lia).
  simpl skipn.
  pose proof (localMin_scan_before_last (skipn (Z.to_nat start) l) p0
                (mkAngle t a) Epos start None (-1)%Z) as Hscan.
  rewrite length_skipn in Hscan. fold n in Hscan.
  apply Z.eqb_neq. lia.
Qed.

Lemma update_windowSize s t angle : windowSize (update s t angle) = windowSize s.
Proof.
  destruct angle; try reflexivity. unfold update.
  unfold finish_rule. set (s3 := fallback_rule _ t).
  assert (H3 : windowSize s3 = windowSize s).
  { unfold s3, fallback_rule, primary_rule, update_streak, push_sample.
    destruct (last_elem (angles s)); simpl;
      destruct (last_elem _); simpl;
      destruct (primary_fires _ t); destruct (fallback_fires _ t);
      reflexivity. }
  rewrite <- H3.
  destruct (last_elem (catches s3)); try reflexivity.
  destruct (3 <=? length _)%nat; try reflexivity.
  destruct (window_since _ _); try reflexivity.
  destruct (last_elem (finishes s3)); try reflexivity.
  destruct (Qltb _ _); reflexivity.
Qed.

Lemma run_windowSize cs : forall s, windowSize (run s cs) = windowSize s.
Proof.
  induction cs as [|c cs IH]; intro s; [reflexivity|].
  simpl. rewrite IH. destruct c; [apply update_windowSize | reflexivity].
Qed.

(** In a session on a constructed detector no call fires the primary rule. *)
Corollary primary_silent_in_sessions (o : Options) (cs : list call) t a :
  primary_fires
    (update_streak (push_sample (run (new_StrokeState o) cs) t a)) t = false.
Proof.
  apply primary_never_fires. rewrite run_windowSize. simpl. lia.
Qed.

(** ** The finish of the current stroke *)

Lemma higher_cases m p :
  (higher m p = m /\ sample_a p <= sample_a m)
  \/ (higher m p = p /\ sample_a m < sample_a p).
Proof.
  unfold higher. destruct (Qltb (sample_a m) (sample_a p)) eqn:E.
  - right. split; [reflexivity | now apply Qltb_true].
  - left. split; [reflexivity | now apply Qltb_false].
Qed.

Lemma fold_higher_spec rest : forall acc,
  let r := fold_left higher rest acc in
  (r = acc \/ In r rest)
  /\ sample_a acc <= sample_a r
  /\ forall q, In q rest -> sample_a q <= sample_a r.
Proof.
  induction rest as [|x rest IH]; intro acc; simpl.
  - split; [now left|]. split; [apply Qle_refl | contradiction].
  - pose proof (IH (higher acc x)) as H. cbv zeta in H.
    destruct H as (Hin & Hacc & Hall).
    destruct (higher_cases acc x) as [[E Hle] | [E Hlt]];
      rewrite E in *.
    + split; [tauto|]. split; [exact Hacc|].
      intros q [<-|Hq]; [qlra | now apply Hall].
    + split; [destruct Hin as [-> | Hin]; auto|].
      split; [qlra|].
      intros q [<-|Hq]; [exact Hacc | now apply Hall].
Qed.

Lemma maxP_max_sample p0 rest : max_sample (maxP p0 rest) (p0 :: rest).
Proof.
  pose proof (fold_higher_spec rest p0) as H. cbv zeta in H.
  fold (maxP p0 rest) in H. destruct H as (Hin & Hacc & Hall).
  split.
  - destruct Hin as [-> | Hin]; [now left | now right].
  - intros q [<-|Hq]; [exact Hacc | now apply Hall].
Qed.

Lemma maxP_snoc p0 rest x :
  maxP p0 (rest ++ [x]) = higher (maxP p0 rest) x.
Proof. unfold maxP. now rewrite fold_left_app. Qed.

Lemma window_since_In c l p :
  In p (window_since c l) <-> In p l /\ c <= sample_t p.
Proof.
  unfold window_since. rewrite filter_In. now rewrite Qleb_true.
Qed.

Lemma window_since_snoc c l x :
  c <= sample_t x -> window_since c (l ++ [x]) = window_since c l ++ [x].
Proof.
  intro H. unfold window_since. rewrite filter_app. simpl.
  apply Qleb_true in H. now rewrite H.
Qed.

Lemma tracked_later s T T' : tracked s T -> T <= T' -> tracked s T'.
Proof.
  intros [Ha Hc Hf Hb Hp] HT.
  split; auto; intros z Hz;
    (apply Qle_trans with T; [auto | exact HT]).
Qed.

Lemma tracked_new o T : tracked (new_StrokeState o) T.
Proof.
  split; simpl; try contradiction.
  - intros f pk H. discriminate H.
  - unfold at_peak, window_length. simpl. lia.
Qed.

Lemma peak_time_in cs l pk :
  peak_time cs l = Some pk ->
  exists c p, last_elem cs = Some c /\ In p (window_since c l)
              /\ sample_t p = pk.
Proof.
  unfold peak_time. destruct (last_elem cs) as [c|]; [|discriminate].
  destruct (window_since c l) as [|p0 rest] eqn:E; [discriminate|].
  intros [= <-]. exists c, (maxP p0 rest). split; [reflexivity|].
  split; [|reflexivity]. rewrite E. apply (maxP_max_sample p0 rest).
Qed.

(** After the two catch rules the last finish is still not later than the
    peak of the window, whether or not a catch was appended. *)
Lemma rules_below_peak s T t a cs' :
  tracked s T -> T <= t ->
  cs' = catches s \/ cs' = catches s ++ [t] ->
  below_peak (finishes s) cs' (angles s ++ [mkAngle t a]).
Proof.
  intros Htr HT Hcs f pk Hf Hpk.
  assert (HfT : f <= T) by (apply (tr_finishes _ _ Htr), last_elem_In, Hf).
  destruct Hcs as [-> | ->].
  - unfold peak_time in Hpk.
    destruct (last_elem (catches s)) as [c|] eqn:Ec; [|discriminate].
    assert (HcT : c <= T) by (apply (tr_catches _ _ Htr), last_elem_In, Ec).
    rewrite window_since_snoc in Hpk by (simpl; qlra).
    destruct (window_since c (angles s)) as [|p0 rest] eqn:Ew; simpl in Hpk.
    + injection Hpk as <-. unfold maxP. simpl. qlra.
    + rewrite maxP_snoc in Hpk. injection Hpk as <-.
      destruct (higher_cases (maxP p0 rest) (mkAngle t a)) as [[-> _]|[-> _]].
      * apply (tr_below _ _ Htr f); [exact Hf|].
        unfold peak_time. now rewrite Ec, Ew.
      * simpl. qlra.
  - apply peak_time_in in Hpk as (c & p & Hc & Hp & <-).
    rewrite last_elem_app in Hc. injection Hc as <-.
    apply window_since_In in Hp as [_ Hp]. qlra.
Qed.

(** What the last block of [update] does to the finish list. *)
Lemma finish_rule_cases s :
  let fs := finishes s in
  let pk := peak_time (catches s) (angles s) in
  (finishes (finish_rule s) = fs
   /\ (window_length (catches s) (angles s) < 3)%nat)
  \/ (finishes (finish_rule s) = fs
      /\ exists f k, last_elem fs = Some f /\ pk = Some k /\ k <= f)
  \/ (exists k, pk = Some k /\ finishes (finish_rule s) = fs ++ [k]
        /\ (3 <= window_length (catches s) (angles s))%nat
        /\ match last_elem fs with
           | None => True
           | Some f => f < k
           end).
Proof.
  unfold finish_rule, peak_time, window_length.
  destruct (last_elem (catches s)) as [c|]; [|left; split; [reflexivity|lia]].
  destruct (3 <=? length (window_since c (angles s)))%nat eqn:E3.
  2:{ left. apply Nat.leb_gt in E3. now split. }
  apply Nat.leb_le in E3.
  destruct (window_since c (angles s)) as [|p0 rest]; [simpl in E3; lia|].
  destruct (last_elem (finishes s)) as [f|] eqn:Ef.
  - destruct (Qltb f (sample_t (maxP p0 rest))) eqn:Elt.
    + right. right. exists (sample_t (maxP p0 rest)).
      apply Qltb_true in Elt. now repeat split.
    + right. left. split; [reflexivity|].
      exists f, (sample_t (maxP p0 rest)). apply Qltb_false in Elt.
      now repeat split.
  - right. right. exists (sample_t (maxP p0 rest)). now repeat split.
Qed.

Lemma finish_rule_tracked s t :
  (forall p, In p (angles s) -> sample_t p <= t) ->
  (forall c, In c (catches s) -> c <= t) ->
  (forall f, In f (finishes s) -> f <= t) ->
  below_peak (finishes s) (catches s) (angles s) ->
  tracked (finish_rule s) t.
Proof.
  intros Ha Hc Hf Hb.
  pose proof (finish_rule_cases s) as Hcases. cbv zeta in Hcases.
  split; rewrite ?finish_rule_angles, ?finish_rule_catches; auto.
  - destruct Hcases as [[-> _] | [[-> _] | (k & Hk & -> & _)]]; auto.
    intros f Hin. apply in_app_or in Hin as [Hin | [<- | []]]; auto.
    apply peak_time_in in Hk as (c & p & _ & Hp & <-).
    apply window_since_In in Hp as [Hp _]. now apply Ha.
  - destruct Hcases as [[-> _] | [[-> _] | (k & Hk & -> & _)]]; auto.
    intros f pk Hf' Hpk. rewrite last_elem_app in Hf'.
    injection Hf' as <-. rewrite Hk in Hpk. injection Hpk as <-.
    apply Qle_refl.
  - intro H3.
    destruct Hcases as [[_ Hlt] | [[-> Hsame] | (k & Hk & -> & _)]].
    + lia.
    + destruct Hsame as (f & k & Hlast & Hk & Hle).
      exists f, k. repeat split; auto.
      apply Qle_antisym; [|exact Hle]. now apply (Hb f k).
    + exists k, k. rewrite last_elem_app. now repeat split.
Qed.

Lemma update_tracked s T t angle :
  tracked s T -> T <= t -> tracked (update s t angle) t.
Proof.
  intros Htr HT.
  destruct angle as [a| | |];
    [| exact (tracked_later _ _ _ Htr HT) ..].
  unfold update.
  set (s1 := update_streak (push_sample s t a)).
  set (s3 := fallback_rule (primary_rule s1 t) t).
  assert (Hang : angles s3 = angles s ++ [mkAngle t a]).
  { unfold s3, s1. now rewrite fallback_rule_angles, primary_rule_angles,
      update_streak_angles, push_sample_angles. }
  assert (Hfin : finishes s3 = finishes s).
  { unfold s3, s1. now rewrite fallback_rule_finishes, primary_rule_finishes,
      update_streak_finishes, push_sample_finishes. }
  assert (Hc1 : catches s1 = catches s).
  { unfold s1. now rewrite update_streak_catches, push_sample_catches. }
  assert (Hcat : catches s3 = catches s \/ catches s3 = catches s ++ [t]
                 \/ catches s3 = (catches s ++ [t]) ++ [t]).
  { unfold s3, fallback_rule, primary_rule.
    destruct (primary_fires s1 t); destruct (fallback_fires _ t);
      simpl; rewrite Hc1; auto. }
  apply finish_rule_tracked.
  - rewrite Hang. intros p Hp.
    apply in_app_or in Hp as [Hp | [<- | []]]; [|simpl; apply Qle_refl].
    apply Qle_trans with T; [now apply (tr_angles _ _ Htr) | exact HT].
  - intros c Hc.
    assert (Hin : In c (catches s) \/ c = t).
    { destruct Hcat as [E | [E | E]]; rewrite E in Hc;
        repeat (apply in_app_or in Hc as [Hc | [<- | []]]); auto. }
    destruct Hin as [Hin | ->]; [|apply Qle_refl].
    apply Qle_trans with T; [now apply (tr_catches _ _ Htr) | exact HT].
  - rewrite Hfin. intros f Hf.
    apply Qle_trans with T; [now apply (tr_finishes _ _ Htr) | exact HT].
  - rewrite Hfin, Hang.
    destruct Hcat as [E | [E | E]].
    + apply rules_below_peak with T; auto.
    + apply rules_below_peak with T; auto.
    + intros f pk Hf Hpk.
      apply peak_time_in in Hpk as (c & p & Hc & Hp & <-).
      rewrite E, last_elem_app in Hc. injection Hc as <-.
      apply window_since_In in Hp as [_ Hp].
      assert (f <= T) by (apply (tr_finishes _ _ Htr), last_elem_In, Hf).
      qlra.
Qed.

Lemma set_catchAngleMax_tracked s T v :
  tracked s T -> tracked (set_catchAngleMax s v) T.
Proof. intros [Ha Hc Hf Hb Hp]. split; assumption. Qed.

Lemma run_tracked cs : forall s T,
  tracked s T ->
  (forall u, In u (call_times cs) -> T <= u) ->
  nondecreasing (call_times cs) ->
  exists T', tracked (run s cs) T'.
Proof.
  induction cs as [|c cs IH]; intros s T Htr Hlow Hnd.
  - now exists T.
  - destruct c as [t angle | v]; simpl in *.
    + destruct Hnd as [Hhead Hnd].
      apply (IH (update s t angle) t); auto.
      apply update_tracked with T; auto.
    + apply (IH (set_catchAngleMax s v) T); auto.
      now apply set_catchAngleMax_tracked.
Qed.

(** The finish list only grows, by one timestamp later than its last one. *)
Lemma update_finishes s t angle :
  finishes (update s t angle) = finishes s
  \/ exists k, finishes (update s t angle) = finishes s ++ [k]
       /\ match last_elem (finishes s) with
          | None => True
          | Some f => f < k
          end.
Proof.
  destruct angle as [a| | |]; try (now left).
  unfold update.
  set (s3 := fallback_rule _ t).
  assert (Hfin : finishes s3 = finishes s).
  { unfold s3. now rewrite fallback_rule_finishes, primary_rule_finishes,
      update_streak_finishes, push_sample_finishes. }
  pose proof (finish_rule_cases s3) as H. cbv zeta in H. rewrite Hfin in H.
  destruct H as [[-> _] | [[-> _] | (k & _ & -> & _ & Hk)]]; auto.
  right. now exists k.
Qed.

Lemma update_finishes_separated s t angle :
  separated 0 (finishes s) -> separated 0 (finishes (update s t angle)).
Proof.
  intro Hs. destruct (update_finishes s t angle) as [-> | (k & -> & Hk)];
    [exact Hs|].
  apply separated_snoc; [exact Hs|].
  destruct (last_elem (finishes s)); [qlra | exact I].
Qed.

Lemma run_finishes_separated cs : forall s,
  separated 0 (finishes s) -> separated 0 (finishes (run s cs)).
Proof.
  induction cs as [|c cs IH]; intros s Hs; [exact Hs|].
  simpl. apply IH. destruct c as [t angle | v]; [|exact Hs].
  now apply update_finishes_separated.
Qed.

Lemma increasing_snoc_lt l k :
  increasing (l ++ [k]) -> forall f, In f l -> f < k.
Proof.
  induction l as [|x l IH]; intros Hinc f Hf; [contradiction|].
  destruct Hinc as [Hx Hinc]. destruct Hf as [<- | Hf].
  - apply Hx. apply in_or_app. right. now left.
  - now apply IH.
Qed.

(** C3, as the code has it.  In a session on a fresh detector whose
    timestamps do not decrease: once three raw samples lie at or after the
    last catch, the last recorded finish is the timestamp of a sample of
    largest angle among them; the finish list is strictly increasing; and a
    further [update] leaves the recorded finishes in place, appending at most
    one timestamp, later than all of them. *)
Theorem finish_is_window_peak (o : Options) (cs : list call) :
  nondecreasing (call_times cs) ->
  let s := run (new_StrokeState o) cs in
  (forall c, last_elem (catches s) = Some c ->
     (3 <= length (window_since c (angles s)))%nat ->
     exists f p, last_elem (finishes s) = Some f
       /\ max_sample p (window_since c (angles s))
       /\ f == sample_t p)
  /\ increasing (finishes s)
  /\ (forall t angle,
        finishes (update s t angle) = finishes s
        \/ exists k, finishes (update s t angle) = finishes s ++ [k]
             /\ forall f, In f (finishes s) -> f < k).
Proof.
  intros Hnd s.
  assert (Hsep : separated 0 (finishes s))
    by (apply run_finishes_separated; exact I).
  split; [|split].
  - intros c Hc H3.
    assert (Hlow : exists T, forall u, In u (call_times cs) -> T <= u).
    { destruct (call_times cs) as [|u0 us]; [now exists 0|].
      exists u0. intros u [<- | Hu]; [apply Qle_refl | now apply Hnd]. }
    destruct Hlow as [T Hlow].
    destruct (run_tracked cs (new_StrokeState o) T (tracked_new o T) Hlow Hnd)
      as [T' Htr].
    fold s in Htr. destruct (tr_at _ _ Htr) as (f & pk & Hf & Hpk & Heq).
    { unfold window_length. now rewrite Hc. }
    unfold peak_time in Hpk. rewrite Hc in Hpk.
    destruct (window_since c (angles s)) as [|p0 rest] eqn:Ew; [discriminate|].
    injection Hpk as <-.
    exists f, (maxP p0 rest). split; [exact Hf|].
    split; [apply maxP_max_sample | exact Heq].
  - apply separated_increasing with 0; [apply Qle_refl | exact Hsep].
  - intros t angle.
    pose proof (update_finishes_separated s t angle Hsep) as Hsep'.
    destruct (update_finishes s t angle) as [E | (k & E & _)]; [now left|].
    right. exists k. split; [exact E|].
    apply increasing_snoc_lt. rewrite <- E.
    apply separated_increasing with 0; [apply Qle_refl | exact Hsep'].
Qed.

Lemma finish_is_window_peak_witness :
  let s := run (new_StrokeState options_small) session_one_stroke in
  catches s = [2] /\ finishes s = [4]
  /\ exists f p, last_elem (finishes s) = Some f
       /\ max_sample p (window_since 2 (angles s))
       /\ f == sample_t p.
Proof.
  intro s. split; [vm_compute; reflexivity|].
  split; [vm_compute; reflexivity|].
  assert (Hnd : nondecreasing (call_times session_one_stroke))
    by concrete_nondecreasing.
  destruct (finish_is_window_peak options_small session_one_stroke Hnd)
    as [H _].
  apply (H 2); [vm_compute; reflexivity | vm_compute; lia].
Defined.

(** C3, as stated, fails: right after a catch there is a catch and a
    largest sample at or after it, yet no finish is recorded, since the
    window holds fewer than three samples. *)
Lemma finish_missing_right_after_catch :
  let s := run (new_StrokeState options_small) session_first_catch in
  nondecreasing (call_times session_first_catch)
  /\ catches s = [2]
  /\ max_sample (mkAngle 2 100) (window_since 2 (angles s))
  /\ finishes s = []
  /\ ~ (exists f p, last_elem (finishes s) = Some f
          /\ max_sample p (window_since 2 (angles s))
          /\ f == sample_t p).
Proof.
  intro s. split; [concrete_nondecreasing|].
  split; [vm_compute; reflexivity|].
  split.
  { split; [vm_compute; now left|].
    intros q Hq. vm_compute in Hq. destruct Hq as [<- | []].
    apply Qle_refl. }
  split; [vm_compute; reflexivity|].
  intros (f & p & Hf & _). vm_compute in Hf. discriminate Hf.
Qed.

(** ** Construction *)

Import Construction.

Lemma js_max_clamped lo given :
  clamped_below lo given (js_max (Fin lo) given).
Proof.
  destruct given as [q| | |]; simpl.
  - unfold Math_max. destruct (Qleb lo q) eqn:E.
    + apply Qleb_true in E. split; [exact E|].
      split; [reflexivity|]. intro H. exfalso. qlra.
    + apply Qleb_false in E. split; [apply Qle_refl|].
      split; [|reflexivity]. intro H. exfalso. qlra.
  - reflexivity.
  - split; [exact I|]. split; [reflexivity | contradiction].
  - split; [apply Qle_refl|]. split; [contradiction | reflexivity].
Qed.

(** On integer settings the constructor on numbers stores what the integer
    model stores. *)
Lemma new_StrokeState_settings (o : Options) :
  settings_of (new_StrokeState o) = constructor_settings (raw_of o).
Proof.
  assert (Hmax : forall lo z,
            Fin (inject_Z (Z.max lo z))
            = js_max (Fin (inject_Z lo)) (Fin (inject_Z z))).
  { intros lo z. simpl. f_equal. unfold Math_max.
    destruct (Qleb (inject_Z lo) (inject_Z z)) eqn:E.
    - apply Qleb_true in E. rewrite <- Zle_Qle in E.
      now rewrite Z.max_r.
    - apply Qleb_false in E. rewrite <- Zlt_Qlt in E.
      rewrite Z.max_l by lia. reflexivity. }
  destruct o as [c sm m cf ws].
  unfold settings_of, constructor_settings, new_StrokeState, raw_of; simpl.
  f_equal.
  - now destruct c.
  - rewrite Hmax. now destruct sm.
  - now destruct m.
  - rewrite Hmax. now destruct cf.
  - rewrite Hmax. now destruct ws.
Qed.

(** C4, as the code has it.  The constructor rejects nothing.  It stores
    [smooth] and [confirmFrames] clamped from below at 1 and [windowSize]
    clamped from below at 3: a given value at or above the minimum is stored
    unchanged, a value below it is stored as the minimum, and NaN is stored
    as NaN.  [minCatchIntervalSec] and [catchAngleMax] are stored exactly as
    given (0.9 and 110 when absent), also when non-positive. *)
Theorem constructor_clamps_windows (o : RawOptions) :
  let st := constructor_settings o in
  clamped_below 1 (default (Fin 5) (raw_smooth o)) (stored_smooth st)
  /\ clamped_below 1 (default (Fin 2) (raw_confirmFrames o))
       (stored_confirmFrames st)
  /\ clamped_below 3 (default (Fin 9) (raw_windowSize o))
       (stored_windowSize st)
  /\ stored_minCatchIntervalSec st
     = default (Fin (9 # 10)) (raw_minCatchIntervalSec o)
  /\ stored_catchAngleMax st = default (Fin 110) (raw_catchAngleMax o).
Proof.
  cbv zeta. unfold constructor_settings; simpl.
  split; [apply js_max_clamped|].
  split; [apply js_max_clamped|].
  split; [apply js_max_clamped|].
  split; reflexivity.
Qed.

(** C4, as stated, fails: a negative [minCatchIntervalSec] is stored
    unchanged, while the non-positive integer settings next to it are
    clamped; and a NaN window setting is stored as NaN, which is not at
    least 1. *)
Lemma constructor_keeps_negative_interval :
  let o := mkOptions None (Some 0%Z) (Some (-1)) (Some (-2)%Z) (Some 0%Z) in
  let r := mkRawOptions None (Some NaN) (Some (Fin (-1))) (Some (Fin (-2)))
             (Some (Fin 0)) in
  smooth (new_StrokeState o) = 1%Z
  /\ confirmFrames (new_StrokeState o) = 1%Z
  /\ windowSize (new_StrokeState o) = 3%Z
  /\ minCatchIntervalSec (new_StrokeState o) = -1
  /\ ~ 0 < minCatchIntervalSec (new_StrokeState o)
  /\ stored_minCatchIntervalSec (constructor_settings r) = Fin (-1)
  /\ ~ jlt (Fin 0) (stored_minCatchIntervalSec (constructor_settings r))
  /\ stored_smooth (constructor_settings r) = NaN
  /\ ~ jle (Fin 1) (stored_smooth (constructor_settings r)).
Proof.
  simpl. repeat split; try (intro H; discriminate H); intro H; exact H.
Qed.

(** ** The summary *)

Lemma periods_long_intervals cs : periods cs = long_intervals cs.
Proof.
  induction cs as [|c0 cs IH]; [reflexivity|].
  destruct cs as [|c1 cs]; [reflexivity|].
  change (periods (c0 :: c1 :: cs))
    with (if Qltb (1 # 10) (c1 - c0)
          then (c1 - c0) :: periods (c1 :: cs) else periods (c1 :: cs)).
  rewrite IH. reflexivity.
Qed.

Lemma fold_left_Qplus l : forall acc, fold_left Qplus l acc == acc + Qsum l.
Proof.
  induction l as [|x l IH]; intro acc; simpl.
  - ring.
  - rewrite IH. ring.
Qed.

(** C5.  [summary()] reports the length of the catch list as the stroke
    count.  Its stroke rate is 0 when there are fewer than two catches, and
    otherwise 60 divided by the mean of the consecutive inter-catch
    intervals that exceed 0.1 s (0 when no interval does). *)
Theorem summary_strokes_and_spm (s : StrokeState) :
  strokes (summary s) = length (catches s)
  /\ ((length (catches s) < 2)%nat -> spm (summary s) = 0)
  /\ (long_intervals (catches s) <> [] ->
      spm (summary s) == 60 / mean (long_intervals (catches s)))
  /\ (long_intervals (catches s) = [] -> spm (summary s) = 0).
Proof.
  unfold summary. rewrite periods_long_intervals.
  destruct (2 <=? length (catches s))%nat eqn:E; simpl;
    (split; [reflexivity | split; [|split]]).
  - apply Nat.leb_le in E. intro H. lia.
  - intro Hne. destruct (long_intervals (catches s)) as [|p ps] eqn:Ep;
      [congruence|].
    unfold mean. rewrite fold_left_Qplus. rewrite Qplus_0_l. reflexivity.
  - intros ->. reflexivity.
  - reflexivity.
  - apply Nat.leb_gt in E. intro Hne. exfalso. apply Hne.
    destruct (catches s) as [|c0 [|c1 cs]]; simpl in E; try reflexivity; lia.
  - reflexivity.
Qed.

Example summary_two_strokes :
  let sm := summary (run (new_StrokeState options_small) session_two_strokes) in
  strokes sm = 3%nat /\ spm sm == 20 /\ drr sm = Some (2 # 2).
Proof. vm_compute. repeat split. Qed.

Lemma drr_scan_spec cs fs n :
  match drr_scan cs fs n with
  | Some r =>
      exists i, (i < n)%nat /\ ratio_at cs fs i r
        /\ forall j r', (i < j < n)%nat -> ~ ratio_at cs fs j r'
  | None => forall i r, (i < n)%nat -> ~ ratio_at cs fs i r
  end.
Proof.
  induction n as [|n IH]; cbn [drr_scan].
  - intros i r Hi. lia.
  - assert (Hskip :
      (forall r, ~ ratio_at cs fs n r) ->
      match drr_scan cs fs n with
      | Some r =>
          exists i, (i < S n)%nat /\ ratio_at cs fs i r
            /\ forall j r', (i < j < S n)%nat -> ~ ratio_at cs fs j r'
      | None => forall i r, (i < S n)%nat -> ~ ratio_at cs fs i r
      end).
    { intro Hn. destruct (drr_scan cs fs n) as [r|].
      - destruct IH as (i & Hi & Hr & Hlater).
        exists i. split; [lia|]. split; [exact Hr|].
        intros j r' Hj. destruct (Nat.eq_dec j n) as [->|Hne];
          [apply Hn | apply Hlater; lia].
      - intros i r Hi. destruct (Nat.eq_dec i n) as [->|Hne];
          [apply Hn | apply IH; lia]. }
    destruct (nth_error cs n) as [tC|] eqn:EC.
    2:{ apply Hskip. intros r (? & ? & ? & H & _). congruence. }
    destruct (nth_error fs n) as [tF|] eqn:EF.
    2:{ apply Hskip. intros r (? & ? & ? & _ & H & _). congruence. }
    destruct (nth_error cs (S n)) as [tN|] eqn:EN.
    2:{ apply Hskip. intros r (? & ? & ? & _ & _ & H & _). congruence. }
    destruct (Qltb tC tF && Qltb tF tN) eqn:Eord.
    + apply andb_true_iff in Eord as [H1 H2].
      apply Qltb_true in H1, H2.
      assert (Hd : Qltb 0 (tF - tC) = true) by (apply Qltb_true; qlra).
      assert (Hr : Qltb 0 (tN - tF) = true) by (apply Qltb_true; qlra).
      rewrite Hd, Hr. cbn [andb].
      exists n. split; [lia|]. split.
      * exists tC, tF, tN. apply Qltb_true in Hd, Hr. repeat split; assumption.
      * intros j r' Hj. lia.
    + apply Hskip. intros r (c & f & c' & HC & HF & HN & H1 & H2 & _).
      rewrite EC in HC. rewrite EF in HF. rewrite EN in HN.
      injection HC as <-. injection HF as <-. injection HN as <-.
      apply Qltb_true in H1, H2. rewrite H1, H2 in Eord. discriminate.
Qed.

(** C6.  [summary()] reports as drive/recovery ratio the quotient
    [(finish[i] - catch[i]) / (catch[i+1] - finish[i])] of the largest index
    [i] with [catch[i] < finish[i] < catch[i+1]] and both durations positive,
    and reports [null] when no index qualifies. *)
Theorem summary_drive_recovery_ratio (s : StrokeState) :
  match drr (summary s) with
  | Some r =>
      exists i, ratio_at (catches s) (finishes s) i r
        /\ forall j r', (i < j)%nat -> ~ ratio_at (catches s) (finishes s) j r'
  | None => forall i r, ~ ratio_at (catches s) (finishes s) i r
  end.
Proof.
  assert (Hrange : forall i r, ratio_at (catches s) (finishes s) i r ->
            (2 <= length (catches s))%nat
            /\ (i < Nat.min (length (finishes s)) (length (catches s) - 1))%nat).
  { intros i r (tC & tF & tN & _ & HF & HN & _).
    assert (i < length (finishes s))%nat
      by (apply nth_error_Some; congruence).
    assert (S i < length (catches s))%nat
      by (apply nth_error_Some; congruence).
    lia. }
  unfold summary.
  destruct (2 <=? length (catches s))%nat eqn:E; simpl.
  - pose proof (drr_scan_spec (catches s) (finishes s)
                  (Nat.min (length (finishes s)) (length (catches s) - 1))) as H.
    destruct (drr_scan _ _ _) as [r|].
    + destruct H as (i & Hi & Hr & Hlater).
      exists i. split; [exact Hr|].
      intros j r' Hj Hrj. apply (Hlater j r'); [|exact Hrj].
      apply Hrange in Hrj. lia.
    + intros i r Hr. apply (H i r); [|exact Hr]. now apply Hrange in Hr.
  - apply Nat.leb_gt in E. intros i r Hr. apply Hrange in Hr. lia.
Qed.

End DetectorFacts.

(** * Facts about the adaptive threshold *)

Module ThresholdFacts.
Import Detector DetectorSpec DetectorFacts Threshold Session SessionSpec.

Lemma Math_max_Qmax x y : Math_max x y == Qmax x y.
Proof.
  unfold Math_max. destruct (Qleb x y) eqn:E.
  - apply Qleb_true in E. symmetry. now apply Q.max_r.
  - apply Qleb_false in E. symmetry. apply Q.max_l. qlra.
Qed.

Lemma Math_min_Qmin x y : Math_min x y == Qmin x y.
Proof.
  unfold Math_min. destruct (Qleb x y) eqn:E.
  - apply Qleb_true in E. symmetry. now apply Q.min_l.
  - apply Qleb_false in E. symmetry. apply Q.min_r. qlra.
Qed.

(** The scan keeps the smallest and the largest angle seen so far. *)
Lemma scan_step_spec w : forall seen mn mx,
  is_min mn seen -> is_max mx seen ->
  exists mn' mx',
    fold_left scan_step w (Some mn, Some mx) = (Some mn', Some mx')
    /\ is_min mn' (seen ++ map knee_angle w)
    /\ is_max mx' (seen ++ map knee_angle w).
Proof.
  induction w as [|k w IH]; intros seen mn mx Hmn Hmx.
  - exists mn, mx. simpl. rewrite app_nil_r. auto.
  - simpl. unfold scan_step at 2. simpl.
    set (a := knee_angle k).
    assert (Hmn' : is_min (if Qltb a mn then a else mn) (seen ++ [a])).
    { destruct Hmn as [Hin Hlow]. destruct (Qltb a mn) eqn:E.
      - apply Qltb_true in E. split; [apply in_or_app; right; now left|].
        intros z Hz. apply in_app_or in Hz as [Hz | [<- | []]];
          [specialize (Hlow z Hz); qlra | apply Qle_refl].
      - apply Qltb_false in E. split; [apply in_or_app; now left|].
        intros z Hz. apply in_app_or in Hz as [Hz | [<- | []]]; auto. }
    assert (Hmx' : is_max (if Qltb mx a then a else mx) (seen ++ [a])).
    { destruct Hmx as [Hin Hup]. destruct (Qltb mx a) eqn:E.
      - apply Qltb_true in E. split; [apply in_or_app; right; now left|].
        intros z Hz. apply in_app_or in Hz as [Hz | [<- | []]];
          [specialize (Hup z Hz); qlra | apply Qle_refl].
      - apply Qltb_false in E. split; [apply in_or_app; now left|].
        intros z Hz. apply in_app_or in Hz as [Hz | [<- | []]]; auto. }
    destruct (IH (seen ++ [a]) _ _ Hmn' Hmx') as (mn' & mx' & Hf & H1 & H2).
    exists mn', mx'. rewrite <- app_assoc in H1, H2. simpl in H1, H2.
    split; [|now split].
    rewrite <- Hf. now destruct (Qltb a mn), (Qltb mx a).
Qed.

Lemma scan_spec w :
  w <> [] ->
  exists mn mx,
    scan w = (Some mn, Some mx)
    /\ is_min mn (map knee_angle w) /\ is_max mx (map knee_angle w).
Proof.
  destruct w as [|k w]; [congruence | intros _].
  unfold scan. simpl. unfold scan_step at 2. simpl.
  apply (scan_step_spec w [knee_angle k]).
  - split; [now left|]. intros z [<- | []]. apply Qle_refl.
  - split; [now left|]. intros z [<- | []]. apply Qle_refl.
Qed.

Lemma estimateCatchThreshold_short w manual :
  (length w < 10)%nat -> estimateCatchThreshold w manual = manual.
Proof.
  intro H. unfold estimateCatchThreshold.
  apply Nat.ltb_lt in H. now rewrite H.
Qed.

Lemma estimateCatchThreshold_full w manual :
  (10 <= length w)%nat ->
  exists mn mx,
    is_min mn (map knee_angle w) /\ is_max mx (map knee_angle w)
    /\ estimateCatchThreshold w manual == floored_threshold mn mx.
Proof.
  intro H. unfold estimateCatchThreshold.
  assert (E : (length w <? 10)%nat = false) by (apply Nat.ltb_ge; exact H).
  rewrite E.
  destruct (scan_spec w) as (mn & mx & -> & Hmn & Hmx).
  { intros ->. simpl in H. lia. }
  exists mn, mx. split; [exact Hmn|]. split; [exact Hmx|].
  unfold floored_threshold, clamp.
  rewrite Math_max_Qmax, Math_min_Qmin.
  now rewrite (Math_max_Qmax 1 (mx - mn)).
Qed.

Lemma shift_while_filter tMin w :
  nondecreasing (map knee_t w) ->
  shift_while tMin w = filter (fun k => Qleb tMin (knee_t k)) w.
Proof.
  induction w as [|k w IH]; intro Hnd; [reflexivity|].
  destruct Hnd as [Hhead Hnd]. cbn [shift_while filter].
  destruct (Qltb (knee_t k) tMin) eqn:E.
  - apply Qltb_true in E.
    assert (E' : Qleb tMin (knee_t k) = false) by now apply Qleb_false.
    rewrite E'. now apply IH.
  - apply Qltb_false in E.
    assert (E' : Qleb tMin (knee_t k) = true) by now apply Qleb_true.
    rewrite E'. f_equal.
    symmetry. apply forallb_filter_id. apply forallb_forall.
    intros k' Hk'. apply Qleb_true.
    apply Qle_trans with (knee_t k); [exact E|].
    apply Hhead. now apply in_map.
Qed.

Lemma nondecreasing_snoc l t :
  nondecreasing l -> (forall x, In x l -> x <= t) -> nondecreasing (l ++ [t]).
Proof.
  induction l as [|x l IH]; intros Hnd Hle.
  - simpl. split; [intros y []|exact I].
  - destruct Hnd as [Hhead Hnd]. simpl. split.
    + intros y Hy. apply in_app_or in Hy as [Hy | [<- | []]];
        [now apply Hhead | apply Hle; now left].
    + apply IH; [exact Hnd|]. intros z Hz. apply Hle. now right.
Qed.

Lemma nondecreasing_filter (f : KneeSample -> bool) w :
  nondecreasing (map knee_t w) -> nondecreasing (map knee_t (filter f w)).
Proof.
  induction w as [|k w IH]; intro Hnd; [exact I|].
  destruct Hnd as [Hhead Hnd]. simpl.
  destruct (f k); [|now apply IH].
  simpl. split; [|now apply IH].
  intros y Hy. apply Hhead. apply in_map_iff in Hy as (k' & <- & Hk').
  apply filter_In in Hk' as [Hk' _]. now apply in_map.
Qed.

Lemma nondecreasing_app_inv l l' :
  nondecreasing (l ++ l') ->
  nondecreasing l /\ nondecreasing l'
  /\ forall x y, In x l -> In y l' -> x <= y.
Proof.
  induction l as [|z l IH]; intro H.
  - split; [exact I|]. split; [exact H|]. intros x y [].
  - destruct H as [Hhead Hrest]. destruct (IH Hrest) as (H1 & H2 & H3).
    split; [split; [|exact H1]|split; [exact H2|]].
    + intros y Hy. apply Hhead. apply in_or_app. now left.
    + intros x y [<- | Hx] Hy; [|now apply H3].
      apply Hhead. apply in_or_app. now right.
Qed.

Lemma frame_times_app es es' :
  frame_times (es ++ es') = frame_times es ++ frame_times es'.
Proof.
  induction es as [|e es IH]; [reflexivity|].
  destruct e; simpl; now rewrite IH.
Qed.

Lemma knee_samples_app es es' :
  knee_samples (es ++ es') = knee_samples es ++ knee_samples es'.
Proof.
  induction es as [|e es IH]; [reflexivity|].
  destruct e as [ts [a| | |] | b | v |]; simpl; now rewrite IH.
Qed.

Lemma handle_all_snoc h es e :
  handle_all h (es ++ [e]) = handle (handle_all h es) e.
Proof. unfold handle_all. now rewrite fold_left_app. Qed.

Lemma div1000_mono x y : x <= y -> x / 1000 <= y / 1000.
Proof.
  intro H. unfold Qdiv. apply Qmult_le_compat_r; [exact H | discriminate].
Qed.

Lemma filter_filter_implied {A : Type} (f g : A -> bool) l :
  (forall x, f x = true -> g x = true) ->
  filter f (filter g l) = filter f l.
Proof.
  intro H. induction l as [|x l IH]; [reflexivity|]. simpl.
  destruct (g x) eqn:Eg; simpl.
  - now rewrite IH.
  - destruct (f x) eqn:Ef; [|exact IH].
    apply H in Ef. congruence.
Qed.

Lemma knee_samples_times es k :
  In k (knee_samples es) ->
  exists t, In t (frame_times es) /\ knee_t k = t / 1000.
Proof.
  induction es as [|e es IH]; intro Hk; [contradiction|].
  destruct e as [ts [a| | |] | b | v |]; simpl in Hk |- *;
    try (destruct (IH Hk) as (t & Ht & E); exists t; now auto).
  destruct Hk as [<- | Hk].
  - exists ts. split; [now left | reflexivity].
  - destruct (IH Hk) as (t & Ht & E). exists t. auto.
Qed.

Lemma knee_samples_sorted es :
  nondecreasing (frame_times es) ->
  nondecreasing (map knee_t (knee_samples es)).
Proof.
  induction es as [|e es IH]; intro H; [exact I|].
  destruct e as [ts [a| | |] | b | v |]; simpl in H |- *;
    try (apply IH; exact H); try (apply IH; apply H).
  destruct H as [Hhead Hrest]. split; [|now apply IH].
  intros y Hy. apply in_map_iff in Hy as (k & <- & Hk).
  apply knee_samples_times in Hk as (t & Ht & ->).
  apply div1000_mono. now apply Hhead.
Qed.

(** One finite frame, on a buffer that is the trailing window at an earlier
    time: the buffer becomes the trailing window at the frame's time. *)
Lemma evict_step (S : list KneeSample) (T0 tS a : Q) :
  T0 <= tS ->
  nondecreasing (map knee_t S) ->
  (forall k, In k S -> knee_t k <= tS) ->
  updateKneeWindow (trailing_window T0 S) tS (Fin a)
  = trailing_window tS (S ++ [mkKnee tS a]).
Proof.
  intros HT Hsorted Hle. unfold updateKneeWindow.
  rewrite shift_while_filter.
  - unfold trailing_window. rewrite !filter_app. f_equal.
    apply filter_filter_implied. intros k Hk.
    apply Qleb_true in Hk. apply Qleb_true. qlra.
  - rewrite map_app. apply nondecreasing_snoc.
    + now apply nondecreasing_filter.
    + intros x Hx. apply in_map_iff in Hx as (k & <- & Hk).
      apply filter_In in Hk as [Hk _]. now apply Hle.
Qed.

Lemma onResults_kneeWindow h ts angle :
  kneeWindow (onResults h ts angle)
  = updateKneeWindow (kneeWindow h) (ts / 1000) angle.
Proof. reflexivity. Qed.

Lemma frame_keeps_tracking es w ts a :
  window_tracks es w ->
  nondecreasing (frame_times (es ++ [Frame ts (Fin a)])) ->
  updateKneeWindow w (ts / 1000) (Fin a)
  = trailing_window (ts / 1000) (knee_samples (es ++ [Frame ts (Fin a)])).
Proof.
  intros Htr Hnd. rewrite frame_times_app in Hnd.
  apply nondecreasing_app_inv in Hnd as (Hes & _ & Hlast).
  rewrite knee_samples_app. simpl knee_samples.
  assert (Hle : forall k, In k (knee_samples es) -> knee_t k <= ts / 1000).
  { intros k Hk. apply knee_samples_times in Hk as (t & Ht & ->).
    apply div1000_mono. apply Hlast; [exact Ht | now left]. }
  destruct Htr as [[HS ->] | (t0 & Ht0 & ->)].
  - rewrite HS.
    change (@nil KneeSample) with (trailing_window (ts / 1000) []) at 1.
    apply evict_step; [apply Qle_refl | exact I | intros k []].
  - apply evict_step.
    + apply div1000_mono. apply Hlast; [exact Ht0 | now left].
    + now apply knee_samples_sorted.
    + exact Hle.
Qed.

(** In a session that starts with an empty knee window and whose frame
    times do not decrease, the buffer is the trailing window of the samples
    seen, taken at the time of the last frame that evicted. *)
Lemma session_window_tracks h0 es :
  kneeWindow h0 = [] ->
  nondecreasing (frame_times es) ->
  window_tracks es (kneeWindow (handle_all h0 es)).
Proof.
  intro H0. induction es as [|e es IH] using rev_ind; intro Hnd.
  - left. split; [reflexivity | exact H0].
  - assert (Hes : nondecreasing (frame_times es)).
    { rewrite frame_times_app in Hnd. now apply nondecreasing_app_inv in Hnd. }
    specialize (IH Hes). rewrite handle_all_snoc.
    set (h := handle_all h0 es) in *.
    assert (Hsame : forall h', kneeWindow h' = kneeWindow h ->
              knee_samples [e] = [] ->
              window_tracks (es ++ [e]) (kneeWindow h')).
    { intros h' Hw He. rewrite Hw. unfold window_tracks.
      rewrite knee_samples_app, He, app_nil_r, frame_times_app.
      destruct IH as [IH | (t0 & Ht0 & E)]; [now left|].
      right. exists t0. split; [apply in_or_app; now left | exact E]. }
    destruct e as [ts [a| | |] | b | v |];
      try (apply Hsame; reflexivity).
    right. exists ts. split.
    + rewrite frame_times_app. apply in_or_app. right. now left.
    + cbn [handle]. rewrite onResults_kneeWindow.
      now apply frame_keeps_tracking.
Qed.

(** C2, as the code has it.  In a session that starts with an empty knee
    window and whose frame times do not decrease, take a frame with a finite
    knee angle while adaptive mode is on.  The buffer the threshold is read
    from is then exactly the trailing window: the finite samples seen so
    far, the frame's own included, that are at most 8 s older than the
    frame.  With ten or more samples in that window the resolved threshold
    is the window minimum plus 0.35 of the spread, where a spread below one
    degree counts as one degree, clamped to [70, 130]; with fewer than ten
    it is the manual threshold itself. *)
Theorem adaptive_threshold
    (h0 : Handler) (es : list event) (ts a : Q) :
  kneeWindow h0 = [] ->
  nondecreasing (frame_times (es ++ [Frame ts (Fin a)])) ->
  autoCatch (handle_all h0 es) = true ->
  let h := handle_all h0 es in
  let h' := onResults h ts (Fin a) in
  let window :=
    trailing_window (ts / 1000) (knee_samples (es ++ [Frame ts (Fin a)])) in
  kneeWindow h' = window
  /\ ((10 <= length window)%nat ->
      exists mn mx,
        is_min mn (map knee_angle window) /\ is_max mx (map knee_angle window)
        /\ catchAngleMax (stroke h') == floored_threshold mn mx)
  /\ ((length window < 10)%nat ->
      catchAngleMax (stroke h') = manualCatchThresh h).
Proof.
  intros H0 Hnd Hauto h h' window.
  assert (Hes : nondecreasing (frame_times es)).
  { rewrite frame_times_app in Hnd. now apply nondecreasing_app_inv in Hnd. }
  assert (Hw : kneeWindow h' = window).
  { unfold h'. rewrite onResults_kneeWindow. unfold window, h.
    apply frame_keeps_tracking; [|exact Hnd].
    now apply session_window_tracks. }
  assert (Hthr : catchAngleMax (stroke h')
                 = estimateCatchThreshold (kneeWindow h') (manualCatchThresh h)).
  { unfold h', onResults. cbn [stroke kneeWindow].
    fold h in Hauto. rewrite Hauto, update_catchAngleMax. reflexivity. }
  split; [exact Hw|]. rewrite Hthr, Hw. split; intro Hlen.
  - apply estimateCatchThreshold_full. exact Hlen.
  - apply estimateCatchThreshold_short. exact Hlen.
Qed.

Lemma adaptive_threshold_witness :
  let h := handle_all (fresh_handler true 110) opening_frames in
  let h' := onResults h 900 (Fin 109) in
  length (kneeWindow h') = 10%nat
  /\ exists mn mx,
       is_min mn (map knee_angle (kneeWindow h'))
       /\ is_max mx (map knee_angle (kneeWindow h'))
       /\ catchAngleMax (stroke h') == floored_threshold mn mx.
Proof.
  intros h h'.
  assert (Hnd : nondecreasing
                  (frame_times (opening_frames ++ [Frame 900 (Fin 109)])))
    by concrete_nondecreasing.
  destruct (adaptive_threshold (fresh_handler true 110) opening_frames 900 109
              eq_refl Hnd eq_refl) as (Hw & Hfull & _).
  fold h in Hw, Hfull. fold h' in Hw, Hfull.
  split; [vm_compute; reflexivity|].
  rewrite Hw. apply Hfull. vm_compute. lia.
Defined.

(** C2, as stated, fails twice.  After ten frames within one second, all
    reading 100 degrees, the trailing window holds ten samples whose minimum
    and maximum are 100; the stated threshold is 100, and the code resolves
    100.35.  And when a frame without a finite angle follows at 100 s, no
    sample lies within the trailing 8 s, yet the code does not fall back to
    the manual threshold of 110: the buffer was not evicted and still yields
    100.35. *)
Lemma adaptive_threshold_flat_window :
  let h := handle_all (fresh_handler true 110) still_frames in
  let h' := onResults h 900 (Fin 100) in
  let window :=
    trailing_window (900 / 1000)
      (knee_samples (still_frames ++ [Frame 900 (Fin 100)])) in
  let h'' := onResults h' 100000 NaN in
  nondecreasing
    (frame_times (still_frames ++ [Frame 900 (Fin 100); Frame 100000 NaN]))
  /\ autoCatch h = true
  /\ kneeWindow h' = window
  /\ length window = 10%nat
  /\ is_min 100 (map knee_angle window) /\ is_max 100 (map knee_angle window)
  /\ catchAngleMax (stroke h') == 2007 # 20
  /\ ~ catchAngleMax (stroke h') == spec_threshold 100 100
  /\ trailing_window (100000 / 1000)
       (knee_samples (still_frames ++ [Frame 900 (Fin 100); Frame 100000 NaN]))
     = []
  /\ length (kneeWindow h'') = 10%nat
  /\ catchAngleMax (stroke h'') == 2007 # 20
  /\ ~ catchAngleMax (stroke h'') == manualCatchThresh h'.
Proof.
  intros h h' window h''.
  assert (Hw : map knee_angle window = repeat 100 10)
    by (vm_compute; reflexivity).
  split; [concrete_nondecreasing|].
  split; [reflexivity|]. split; [vm_compute; reflexivity|].
  split; [vm_compute; reflexivity|].
  rewrite Hw.
  split; [split; [now left | intros z Hz; apply repeat_spec in Hz as ->; apply Qle_refl]|].
  split; [split; [now left | intros z Hz; apply repeat_spec in Hz as ->; apply Qle_refl]|].
  split; [vm_compute; reflexivity|].
  split; [vm_compute; intro H; discriminate H|].
  split; [vm_compute; reflexivity|].
  split; [vm_compute; reflexivity|].
  split; [vm_compute; reflexivity|].
  vm_compute. intro H. discriminate H.
Qed.

(** With timestamps that do not decrease, the knee window after a finite
    sample at [t] is the trailing window: the samples not older than
    [t - kneeWindowSec]. *)
Lemma shift_while_trailing tMin w :
  (forall k, In k w -> tMin <= knee_t k) -> shift_while tMin w = w.
Proof.
  destruct w as [|k w]; [reflexivity|]. intro H. simpl.
  assert (E : Qltb (knee_t k) tMin = false)
    by (apply Qltb_false, H; now left).
  now rewrite E.
Qed.

Lemma updateKneeWindow_trailing w t a :
  (forall k, In k w -> t - kneeWindowSec <= knee_t k) ->
  updateKneeWindow w t (Fin a) = w ++ [mkKnee t a].
Proof.
  intro H. unfold updateKneeWindow. apply shift_while_trailing.
  intros k Hk. apply in_app_or in Hk as [Hk | [<- | []]]; [now apply H|].
  simpl. unfold kneeWindowSec. qlra.
Qed.

Lemma updateKneeWindow_evicts w t a :
  nondecreasing (map knee_t w) ->
  forall k, In k (updateKneeWindow w t (Fin a)) ->
    t - kneeWindowSec <= knee_t k.
Proof.
  intros Hnd. unfold updateKneeWindow.
  assert (Hgen : forall l, nondecreasing (map knee_t l) ->
            forall k, In k (shift_while (t - kneeWindowSec) (l ++ [mkKnee t a])) ->
            t - kneeWindowSec <= knee_t k).
  { induction l as [|k0 l IH]; intros Hl k Hk.
    - simpl in Hk. destruct (Qltb t (t - kneeWindowSec)) eqn:E.
      + contradiction.
      + destruct Hk as [<- | []]. simpl. now apply Qltb_false.
    - simpl in Hk. destruct Hl as [Hhead Hl].
      destruct (Qltb (knee_t k0) (t - kneeWindowSec)) eqn:E.
      + now apply IH.
      + apply Qltb_false in E.
        destruct Hk as [<- | Hk]; [exact E|].
        apply in_app_or in Hk as [Hk | [<- | []]].
        * apply Qle_trans with (knee_t k0); [exact E|].
          apply Hhead. now apply in_map.
        * simpl. unfold kneeWindowSec. qlra. }
  now apply Hgen.
Qed.

End ThresholdFacts.

(** * Facts about the geometry kernel *)

Module GeometryFacts.
Import Geometry.
Local Open Scope R_scope.

Lemma hypot_nonneg u v : 0 <= hypot u v.
Proof. apply sqrt_pos. Qed.

Lemma hypot_zero u v : hypot u v = 0 <-> u = 0 /\ v = 0.
Proof.
  unfold hypot. split.
  - intro H. apply sqrt_eq_0 in H; [|nra]. split; nra.
  - intros [-> ->]. replace (0 * 0 + 0 * 0) with 0 by ring. apply sqrt_0.
Qed.

Lemma hypot_sqr u v : hypot u v * hypot u v = u * u + v * v.
Proof. unfold hypot. apply sqrt_sqrt. nra. Qed.

Lemma hypot_coincide p q :
  hypot (x p - x q) (y p - y q) = 0 <-> coincide p q.
Proof.
  rewrite hypot_zero. unfold coincide. split; intros [H1 H2]; split; lra.
Qed.

(** Cauchy-Schwarz in the plane: the normalised dot product is a cosine. *)
Lemma normalised_dot_bounds u1 u2 v1 v2 :
  hypot u1 u2 <> 0 -> hypot v1 v2 <> 0 ->
  -1 <= (u1 * v1 + u2 * v2) / (hypot u1 u2 * hypot v1 v2) <= 1.
Proof.
  intros Hu Hv.
  pose proof (hypot_nonneg u1 u2) as Hu0.
  pose proof (hypot_nonneg v1 v2) as Hv0.
  pose proof (hypot_sqr u1 u2) as Hu2.
  pose proof (hypot_sqr v1 v2) as Hv2.
  set (m := hypot u1 u2) in *. set (n := hypot v1 v2) in *.
  set (d := u1 * v1 + u2 * v2).
  assert (Hmn : 0 < m * n) by (apply Rmult_lt_0_compat; lra).
  assert (Hd : d * d <= (m * n) * (m * n)).
  { replace ((m * n) * (m * n)) with ((m * m) * (n * n)) by ring.
    rewrite Hu2, Hv2. unfold d.
    pose proof (Rle_0_sqr (u1 * v2 - u2 * v1)) as Hsq.
    unfold Rsqr in Hsq. nra. }
  assert (Hle : - (m * n) <= d <= m * n) by (split; nra).
  split.
  - apply Rmult_le_reg_r with (m * n); [exact Hmn|].
    unfold Rdiv. rewrite Rmult_assoc, Rinv_l by lra. lra.
  - apply Rmult_le_reg_r with (m * n); [exact Hmn|].
    unfold Rdiv. rewrite Rmult_assoc, Rinv_l by lra. lra.
Qed.

Lemma clamp_unit_id q : -1 <= q <= 1 -> Rmax (-1) (Rmin 1 q) = q.
Proof.
  intros [H1 H2]. rewrite Rmin_right by exact H2.
  now rewrite Rmax_right.
Qed.

Lemma degrees_bounds r : 0 <= r <= PI -> 0 <= r * 180 / PI <= 180.
Proof.
  intros [H0 H1]. pose proof PI_RGT_0 as Hpi.
  split.
  - apply Rmult_le_reg_r with PI; [lra|].
    unfold Rdiv. rewrite Rmult_assoc, Rinv_l by lra. lra.
  - apply Rmult_le_reg_r with PI; [lra|].
    unfold Rdiv. rewrite Rmult_assoc, Rinv_l by lra. lra.
Qed.

(** The remainder of a non-negative dividend by 360 lies in [0, 360). *)
Lemma js_rem_360_bounds n : 0 <= n -> 0 <= js_rem n 360 < 360.
Proof.
  intro Hn. unfold js_rem, trunc.
  assert (Hq : 0 <= n / 360) by (unfold Rdiv; nra).
  destruct (Rle_dec 0 (n / 360)) as [_|Hneg]; [|contradiction].
  destruct (base_Int_part (n / 360)) as [Hlo Hhi].
  assert (Heq : n = 360 * (n / 360)) by (unfold Rdiv; field).
  split; lra.
Qed.

Lemma angleToVertical_eq p1 p2 :
  ~ coincide p2 p1 ->
  angleToVertical p1 p2
  = Some (Rabs (js_rem
            (Rabs (-90 - atan2 (y p2 - y p1) (x p2 - x p1) * 180 / PI) + 180)
            360 - 180)).
Proof.
  intro H. unfold angleToVertical.
  destruct (Req_dec_T _ 0) as [E|_]; [|reflexivity].
  apply hypot_coincide in E. contradiction.
Qed.

(** The sine of [atan2] is the second coordinate over the length. *)
Lemma sqrt_one_plus_sqr u v :
  0 < u -> sqrt (1 + (v / u)²) = hypot u v / u.
Proof.
  intro Hu. apply sqrt_lem_1.
  - unfold Rsqr. pose proof (Rle_0_sqr (v / u)) as H. unfold Rsqr in H. lra.
  - apply Rmult_le_pos; [apply hypot_nonneg|].
    left. now apply Rinv_0_lt_compat.
  - unfold Rsqr.
    replace (hypot u v / u * (hypot u v / u))
      with (hypot u v * hypot u v / (u * u)) by (field; lra).
    rewrite hypot_sqr. field. lra.
Qed.

Lemma sin_atan2 v u :
  hypot u v <> 0 -> sin (atan2 v u) = v / hypot u v.
Proof.
  intro Hne. unfold atan2.
  destruct (Rlt_dec 0 u) as [Hpos | Hnpos].
  - rewrite sin_atan, sqrt_one_plus_sqr by exact Hpos. field. lra.
  - destruct (Rlt_dec u 0) as [Hneg | Hnneg].
    + assert (Hs : sin (atan (v / u)) = - (v / hypot u v)).
      { rewrite sin_atan.
        replace (v / u) with ((- v) / (- u)) by (field; lra).
        rewrite sqrt_one_plus_sqr by lra.
        replace (hypot (- u) (- v)) with (hypot u v)
          by (unfold hypot; f_equal; ring).
        field. lra. }
      destruct (Rle_dec 0 v) as [_ | _].
      * rewrite neg_sin, Hs. ring.
      * rewrite sin_minus, sin_PI, cos_PI, Hs. ring.
    + assert (Hu : u = 0) by lra. subst u.
      assert (Hh : hypot 0 v = Rabs v).
      { unfold hypot. replace (0 * 0 + v * v) with (Rsqr v)
          by (unfold Rsqr; ring). apply sqrt_Rsqr_abs. }
      rewrite Hh in *.
      destruct (Rlt_dec 0 v) as [Hv | Hnv].
      * rewrite sin_PI2, Rabs_right by lra. field. lra.
      * destruct (Rlt_dec v 0) as [Hv | Hnv'].
        -- rewrite sin_neg, sin_PI2, Rabs_left by lra. field. lra.
        -- assert (v = 0) by lra. subst v. rewrite Rabs_R0 in Hne.
           contradiction.
Qed.

Lemma Int_part_nonneg r : 0 <= r -> (0 <= Int_part r)%Z.
Proof.
  intro Hr. destruct (base_Int_part r) as [_ H].
  assert (Hlt : -1 < IZR (Int_part r)) by lra.
  apply lt_IZR in Hlt. lia.
Qed.

(** Reducing modulo 360 and taking absolute values keeps the cosine. *)
Lemma cos_folded d :
  0 <= d ->
  cos (Rabs (js_rem (d + 180) 360 - 180) * PI / 180) = cos (d * PI / 180).
Proof.
  intro Hd. unfold js_rem, trunc.
  assert (Hq : 0 <= (d + 180) / 360) by (unfold Rdiv; lra).
  destruct (Rle_dec 0 ((d + 180) / 360)) as [_ | Hn]; [|contradiction].
  pose proof (Int_part_nonneg _ Hq) as Hk.
  set (k := Int_part ((d + 180) / 360)) in *.
  assert (Hnat : IZR k = INR (Z.to_nat k))
    by (rewrite INR_IZR_INZ, Z2Nat.id; [reflexivity | exact Hk]).
  set (r := d + 180 - 360 * IZR k - 180).
  assert (Hcos : cos (r * PI / 180) = cos (d * PI / 180)).
  { rewrite <- (cos_period (r * PI / 180) (Z.to_nat k)). f_equal.
    unfold r. rewrite <- Hnat. field. }
  unfold Rabs. destruct (Rcase_abs r) as [Hr | Hr]; [|exact Hcos].
  replace (- r * PI / 180) with (- (r * PI / 180)) by (unfold Rdiv; ring).
  rewrite cos_neg. exact Hcos.
Qed.

Lemma cos_abs z : cos (Rabs z * PI / 180) = cos (z * PI / 180).
Proof.
  unfold Rabs. destruct (Rcase_abs z); [|reflexivity].
  replace (- z * PI / 180) with (- (z * PI / 180)) by (unfold Rdiv; ring).
  apply cos_neg.
Qed.

(** C8.  For two points that do not coincide, [angleToVertical] returns the
    angle, in degrees within [0, 180], between the segment from [p1] to [p2]
    and the vertical direction of decreasing [y]: its cosine is minus the
    [y] extent of the segment divided by the segment's length, which fixes
    the value (0 for a segment along that direction, 90 for a horizontal
    one, 180 for the opposite direction).  For two coinciding points it
    returns NaN, and for the vertical segment from (0,1) to (0,0) it returns
    a value within 1e-6 of 0. *)
Theorem angleToVertical_range_and_anchors :
  (forall p1 p2, ~ coincide p2 p1 ->
     exists v, angleToVertical p1 p2 = Some v /\ 0 <= v <= 180
       /\ cos (v * PI / 180)
          = - (y p2 - y p1) / hypot (x p2 - x p1) (y p2 - y p1))
  /\ (forall p1 p2, coincide p2 p1 -> angleToVertical p1 p2 = None)
  /\ (exists v, angleToVertical (mkPoint 0 1) (mkPoint 0 0) = Some v
        /\ Rabs (v - 0) < 1 / 1000000).
Proof.
  split; [|split].
  - intros p1 p2 Hne. rewrite (angleToVertical_eq p1 p2 Hne).
    eexists. split; [reflexivity|].
    set (theta := atan2 (y p2 - y p1) (x p2 - x p1)).
    set (diff := Rabs (-90 - theta * 180 / PI)).
    assert (Hdiff : 0 <= diff) by apply Rabs_pos.
    assert (Hd : 0 <= diff + 180) by lra.
    destruct (js_rem_360_bounds _ Hd) as [Hlo Hhi].
    split; [split; [apply Rabs_pos | apply Rabs_le; lra]|].
    rewrite (cos_folded diff Hdiff). unfold diff. rewrite cos_abs.
    pose proof PI_RGT_0 as Hpi.
    replace ((-90 - theta * 180 / PI) * PI / 180)
      with (- (PI / 2 + theta)) by (field; lra).
    rewrite cos_neg.
    assert (Hsc : cos (PI / 2 + theta) = - sin theta)
      by (rewrite (sin_cos theta); ring).
    rewrite Hsc. unfold theta. rewrite sin_atan2.
    + unfold Rdiv. ring.
    + intro E. apply hypot_coincide in E. contradiction.
  - intros p1 p2 Hco. unfold angleToVertical.
    destruct (Req_dec_T _ 0) as [_|Hne]; [reflexivity|].
    exfalso. apply Hne. now apply hypot_coincide.
  - exists 0. split.
    + rewrite angleToVertical_eq
        by (unfold coincide; simpl; intros [_ H]; lra).
      simpl. f_equal.
      replace (0 - 1) with (-1) by ring. replace (0 - 0) with 0 by ring.
      assert (Hat : atan2 (-1) 0 = - (PI / 2)).
      { unfold atan2.
        destruct (Rlt_dec 0 0) as [H|_]; [lra|].
        destruct (Rlt_dec 0 (-1)) as [H|_]; [lra|].
        destruct (Rlt_dec (-1) 0) as [_|H]; [reflexivity | lra]. }
      rewrite Hat.
      assert (Hth : - (PI / 2) * 180 / PI = -90)
        by (pose proof PI_RGT_0; field; lra).
      rewrite Hth. replace (-90 - -90) with 0 by ring.
      rewrite Rabs_R0, Rplus_0_l.
      assert (Hrem : js_rem 180 360 = 180).
      { unfold js_rem, trunc.
        destruct (Rle_dec 0 (180 / 360)) as [_|H]; [|lra].
        rewrite <- (Int_part_spec (180 / 360) 0) by (simpl; lra).
        simpl. ring. }
      rewrite Hrem. replace (180 - 180) with 0 by ring. apply Rabs_R0.
    + replace (0 - 0) with 0 by ring. rewrite Rabs_R0. lra.
Qed.

Lemma angleAt_eq a b c :
  ~ coincide a b -> ~ coincide c b ->
  angleAt a b c
  = Some (acos (Rmax (-1) (Rmin 1
            (((x a - x b) * (x c - x b) + (y a - y b) * (y c - y b))
             / (hypot (x a - x b) (y a - y b)
                * hypot (x c - x b) (y c - y b)))))
          * 180 / PI).
Proof.
  intros Ha Hc. unfold angleAt.
  destruct (Req_dec_T _ 0) as [E|_];
    [apply hypot_coincide in E; contradiction|].
  destruct (Req_dec_T _ 0) as [E|_];
    [apply hypot_coincide in E; contradiction|].
  reflexivity.
Qed.

(** C9.  When neither [a] nor [c] coincides with [b], [angleAt] returns a
    number of degrees in [0, 180] whose cosine is the dot product of the two
    rays divided by the product of their lengths: the interior angle at
    [b].  When [a] or [c] coincides with [b] it returns NaN.  For
    a = (0,1), b = (0,0), c = (1,0) it returns a value within 1e-6 of 90. *)
Theorem angleAt_interior_angle_and_anchors :
  (forall a b c, ~ coincide a b -> ~ coincide c b ->
     exists v, angleAt a b c = Some v /\ 0 <= v <= 180
       /\ cos (v * PI / 180)
          = ((x a - x b) * (x c - x b) + (y a - y b) * (y c - y b))
            / (hypot (x a - x b) (y a - y b)
               * hypot (x c - x b) (y c - y b)))
  /\ (forall a b c, coincide a b \/ coincide c b -> angleAt a b c = None)
  /\ (exists v,
        angleAt (mkPoint 0 1) (mkPoint 0 0) (mkPoint 1 0) = Some v
        /\ Rabs (v - 90) < 1 / 1000000).
Proof.
  split; [|split].
  - intros a b c Ha Hc. rewrite (angleAt_eq a b c Ha Hc).
    eexists. split; [reflexivity|].
    assert (Hq := normalised_dot_bounds
                    (x a - x b) (y a - y b) (x c - x b) (y c - y b)).
    rewrite !hypot_coincide in Hq. specialize (Hq Ha Hc).
    rewrite (clamp_unit_id _ Hq).
    split; [apply degrees_bounds, acos_bound|].
    pose proof PI_RGT_0 as Hpi.
    replace (acos _ * 180 / PI * PI / 180) with
      (acos (((x a - x b) * (x c - x b) + (y a - y b) * (y c - y b))
             / (hypot (x a - x b) (y a - y b)
                * hypot (x c - x b) (y c - y b))))
      by (field; lra).
    now apply cos_acos.
  - intros a b c H. unfold angleAt.
    destruct (Req_dec_T _ 0) as [_|Hne1]; [reflexivity|].
    destruct (Req_dec_T _ 0) as [_|Hne2]; [reflexivity|].
    rewrite hypot_coincide in Hne1, Hne2. tauto.
  - exists 90. split.
    + rewrite angleAt_eq
        by (unfold coincide; simpl; intros [H1 H2]; lra).
      simpl. f_equal.
      replace ((0 - 0) * (1 - 0) + (1 - 0) * (0 - 0)) with 0 by ring.
      unfold Rdiv at 2. rewrite Rmult_0_l.
      rewrite (clamp_unit_id 0) by lra.
      rewrite acos_0. pose proof PI_RGT_0. field. lra.
    + replace (90 - 90) with 0 by ring. rewrite Rabs_R0. lra.
Qed.

End GeometryFacts.

(** * Further facts about the detector *)

Module DetectorMore.
Import Detector DetectorSpec MoreSpec DetectorFacts.

(** ** What the three closing blocks of [update] leave alone *)

Lemma rules_frame s t :
  let r := finish_rule (fallback_rule (primary_rule s t) t) in
  angles r = angles s /\ deriv r = deriv s /\ _posStreak r = _posStreak s
  /\ same_settings s r.
Proof.
  cbv zeta. unfold finish_rule. set (s3 := fallback_rule _ t).
  assert (H3 : angles s3 = angles s /\ deriv s3 = deriv s
               /\ _posStreak s3 = _posStreak s /\ same_settings s s3).
  { unfold s3, fallback_rule, primary_rule, same_settings.
    destruct (primary_fires s t); destruct (fallback_fires _ t);
      simpl; repeat split; reflexivity. }
  destruct H3 as (Ha & Hd & Hp & Hs).
  rewrite <- Ha, <- Hd, <- Hp.
  assert (Hs' : forall r, same_settings s3 r -> same_settings s r).
  { unfold same_settings in *. intros r (h1 & h2 & h3 & h4 & h5).
    destruct Hs as (g1 & g2 & g3 & g4 & g5).
    repeat split; congruence. }
  destruct (last_elem (catches s3));
    [|repeat split; try reflexivity; apply Hs'; repeat split].
  destruct (3 <=? length _)%nat;
    [|repeat split; try reflexivity; apply Hs'; repeat split].
  destruct (window_since _ _);
    [repeat split; try reflexivity; apply Hs'; repeat split|].
  destruct (last_elem (finishes s3));
    [destruct (Qltb _ _)|];
    repeat split; try reflexivity; apply Hs'; repeat split.
Qed.

Lemma stage1_settings s t a :
  same_settings s (update_streak (push_sample s t a)).
Proof.
  unfold same_settings, update_streak, push_sample.
  destruct (last_elem (angles s)); simpl; destruct (last_elem _);
    simpl; repeat split; reflexivity.
Qed.

Lemma same_settings_trans s1 s2 s3 :
  same_settings s1 s2 -> same_settings s2 s3 -> same_settings s1 s3.
Proof.
  unfold same_settings. intros (a1 & a2 & a3 & a4 & a5) (b1 & b2 & b3 & b4 & b5).
  repeat split; congruence.
Qed.

Lemma update_settings s t angle : same_settings s (update s t angle).
Proof.
  destruct angle; try (repeat split; reflexivity).
  unfold update.
  apply same_settings_trans with (update_streak (push_sample s t q)).
  - apply stage1_settings.
  - apply (rules_frame (update_streak (push_sample s t q)) t).
Qed.

Lemma update_angles s t a :
  angles (update s t (Fin a)) = angles s ++ [mkAngle t a].
Proof.
  unfold update.
  destruct (rules_frame (update_streak (push_sample s t a)) t) as (-> & _).
  now rewrite update_streak_angles, push_sample_angles.
Qed.

Lemma update_streak_deriv s : deriv (update_streak s) = deriv s.
Proof. unfold update_streak. now destruct (last_elem (deriv s)). Qed.

Lemma update_deriv s t a :
  deriv (update s t (Fin a))
  = match last_elem (angles s) with
    | Some p0 =>
        deriv s ++ [mkDeriv t ((a - sample_a p0)
                               / Math_max (1 # 1000000) (t - sample_t p0))]
    | None => deriv s
    end.
Proof.
  unfold update.
  destruct (rules_frame (update_streak (push_sample s t a)) t) as (_ & -> & _).
  rewrite update_streak_deriv. unfold push_sample.
  now destruct (last_elem (angles s)).
Qed.

Lemma update_posStreak s t a :
  _posStreak (update s t (Fin a))
  = match last_elem (deriv (update s t (Fin a))) with
    | Some dNow =>
        if Qleb 0 (deriv_d dNow) then (_posStreak s + 1)%Z else 0%Z
    | None => _posStreak s
    end.
Proof.
  rewrite update_deriv. unfold update.
  destruct (rules_frame (update_streak (push_sample s t a)) t)
    as (_ & _ & -> & _).
  unfold update_streak, push_sample.
  destruct (last_elem (angles s)); simpl;
    destruct (last_elem _); reflexivity.
Qed.

(** ** The histories of a session *)

Lemma slope_sign a a0 dt :
  0 < dt -> Qleb 0 ((a - a0) / dt) = Qleb a0 a.
Proof.
  intro Hdt. destruct (Qleb a0 a) eqn:E.
  - apply Qleb_true in E. apply Qleb_true.
    apply Qle_shift_div_l; [exact Hdt | qlra].
  - destruct (Qleb 0 ((a - a0) / dt)) eqn:E'; [|reflexivity].
    apply nonneg_slope in E'; [|exact Hdt].
    apply Qleb_false in E. qlra.
Qed.

Lemma run_angles cs : forall s,
  angles (run s cs) = angles s ++ finite_samples cs.
Proof.
  induction cs as [|c cs IH]; intro s.
  - simpl. now rewrite app_nil_r.
  - change (run s (c :: cs)) with (run (apply_call s c) cs). rewrite IH.
    destruct c as [t [a| | |] | v]; try reflexivity.
    cbn [apply_call finite_samples].
    rewrite update_angles, <- app_assoc. reflexivity.
Qed.

Lemma rising_run_snoc l a0 a :
  rising_run (l ++ [a0] ++ [a])
  = if Qleb a0 a then (1 + rising_run (l ++ [a0]))%Z else 0%Z.
Proof.
  unfold rising_run. rewrite !rev_app_distr. simpl. reflexivity.
Qed.

Lemma tl_snoc {A : Type} (l : list A) (x : A) :
  l <> [] -> tl (l ++ [x]) = tl l ++ [x].
Proof. destruct l; [congruence | reflexivity]. Qed.

Lemma update_in_step s t angle : in_step s -> in_step (update s t angle).
Proof.
  intros [Hlen Htimes Hstreak].
  destruct angle as [a| | |]; try (now split).
  split.
  - rewrite update_deriv, update_angles, length_app. simpl.
    destruct (last_elem (angles s)) as [p0|] eqn:E.
    + rewrite length_app. simpl. apply last_elem_In in E.
      destruct (angles s); [contradiction | simpl in *; lia].
    + apply last_elem_None in E. rewrite E in *. simpl in *. lia.
  - rewrite update_deriv, update_angles, map_app. simpl.
    destruct (last_elem (angles s)) as [p0|] eqn:E.
    + rewrite map_app. simpl. rewrite Htimes.
      rewrite tl_snoc; [reflexivity|].
      apply last_elem_In in E. destruct (angles s); [contradiction | discriminate].
    + apply last_elem_None in E. rewrite E in *. simpl in *.
      destruct (deriv s); [reflexivity | discriminate].
  - rewrite update_posStreak, update_deriv, update_angles.
    destruct (last_elem (angles s)) as [p0|] eqn:E.
    + rewrite last_elem_app. simpl deriv_d.
      rewrite slope_sign by apply Math_max_floor_pos.
      destruct (last_elem_inv _ _ E) as [l Hl].
      rewrite Hstreak, Hl, !map_app. simpl map.
      rewrite <- app_assoc. rewrite (rising_run_snoc (map sample_a l)).
      destruct (Qleb (sample_a p0) a); [lia | reflexivity].
    + apply last_elem_None in E. rewrite E in *. simpl in *.
      destruct (deriv s); [|discriminate]. simpl. exact Hstreak.
Qed.

Lemma run_in_step cs : forall s, in_step s -> in_step (run s cs).
Proof.
  induction cs as [|c cs IH]; intros s Hs; [exact Hs|].
  simpl. apply IH. destruct c as [t angle | v].
  - now apply update_in_step.
  - destruct Hs. now split.
Qed.

Lemma new_in_step o : in_step (new_StrokeState o).
Proof. split; reflexivity. Qed.

(** X1.  In a session on a constructed detector the angle history is the
    list of the calls that carried a finite angle, in call order; there is
    one derivative sample per angle sample after the first, stamped with that
    sample's time. *)
Theorem session_histories (o : Options) (cs : list call) :
  let s := run (new_StrokeState o) cs in
  angles s = finite_samples cs
  /\ length (deriv s) = pred (length (finite_samples cs))
  /\ map deriv_t (deriv s) = tl (map sample_t (finite_samples cs)).
Proof.
  intro s.
  assert (Ha : angles s = finite_samples cs)
    by (unfold s; now rewrite run_angles).
  destruct (run_in_step cs _ (new_in_step o)) as [Hlen Htimes _].
  fold s in Hlen, Htimes. rewrite Ha in Hlen, Htimes. auto.
Qed.

(** X2.  In a session on a constructed detector the positive streak is the
    number of latest steps of the angle history in which the angle did not
    fall: the clamp of the time step to 1e-6 keeps the sign of every
    derivative equal to the sign of the angle change, also when timestamps
    repeat or run backwards. *)
Theorem streak_counts_rising_steps (o : Options) (cs : list call) :
  _posStreak (run (new_StrokeState o) cs)
  = rising_run (map sample_a (finite_samples cs)).
Proof.
  destruct (run_in_step cs _ (new_in_step o)) as [_ _ Hs].
  rewrite Hs. now rewrite run_angles.
Qed.

(** ** The two window tests *)

Lemma localMin_scan_last w x : forall i minA minIdx,
  (minIdx < i)%Z ->
  localMin_scan (w ++ [x]) i minA minIdx = (i + Z.of_nat (length w))%Z
  <-> (forall p, In p w -> sample_a x < sample_a p)
      /\ match minA with
         | Some m => sample_a x < m
         | None => True
         end.
Proof.
  induction w as [|y w IH]; intros i minA minIdx Hidx.
  - simpl. destruct minA as [m|].
    + destruct (Qltb (sample_a x) m) eqn:E.
      * apply Qltb_true in E. split; [intros _; split; [contradiction|exact E]|].
        intros _. lia.
      * apply Qltb_false in E. split; [clear E; intro H; exfalso; lia|].
        intros [_ H]. exfalso. qlra.
    + split; [intros _; split; [contradiction | exact I] | intros _; lia].
  - cbn [app localMin_scan length].
    assert (Hnext : (i + Z.of_nat (S (length w)) = (i + 1) + Z.of_nat (length w))%Z)
      by lia.
    rewrite Hnext.
    destruct minA as [m|].
    + destruct (Qltb (sample_a y) m) eqn:E.
      * apply Qltb_true in E.
        rewrite (IH (i + 1)%Z (Some (sample_a y)) i) by lia.
        split.
        -- intros [Hw Hy]. split; [|qlra].
           intros p [<- | Hp]; [exact Hy | now apply Hw].
        -- intros [Hw _]. split; [|apply Hw; now left].
           intros p Hp. apply Hw. now right.
      * apply Qltb_false in E.
        rewrite (IH (i + 1)%Z (Some m) minIdx) by (clear E; lia).
        split.
        -- intros [Hw Hm]. split; [|exact Hm].
           intros p [<- | Hp]; [qlra | now apply Hw].
        -- intros [Hw Hm]. split; [|exact Hm].
           intros p Hp. apply Hw. now right.
    + rewrite (IH (i + 1)%Z (Some (sample_a y)) i) by lia.
      split.
      * intros [Hw Hy]. split; [|exact I].
        intros p [<- | Hp]; [exact Hy | now apply Hw].
      * intros [Hw _]. split; [|apply Hw; now left].
        intros p Hp. apply Hw. now right.
Qed.

(** X3.  With a window of at least one sample, [_isLocalMin] answers true
    exactly when the history holds at least [windowSize] samples and the
    newest one is strictly below each of the [windowSize - 1] samples before
    it: a tie with an earlier sample is not a minimum. *)
Theorem isLocalMin_iff_strict_minimum (s : StrokeState) :
  (1 <= windowSize s)%Z ->
  _isLocalMin s = true
  <-> (windowSize s <= Z.of_nat (length (angles s)))%Z
      /\ exists l x, angles s = l ++ [x]
           /\ forall p, In p (trailing (Z.to_nat (windowSize s) - 1) l) ->
                        sample_a x < sample_a p.
Proof.
  intro Hws. unfold _isLocalMin.
  destruct (Z.of_nat (length (angles s)) <? windowSize s)%Z eqn:Elen.
  - apply Z.ltb_lt in Elen. split; [discriminate|]. intros [H _]. lia.
  - apply Z.ltb_ge in Elen.
    destruct (last_elem (angles s)) as [x|] eqn:Elast.
    2:{ apply last_elem_None in Elast. rewrite Elast in Elen.
        simpl in Elen. lia. }
    destruct (last_elem_inv _ _ Elast) as [l Hl].
    rewrite Hl in *. rewrite length_app in *. simpl length in *.
    set (n := length l) in *.
    set (start := Z.max 0 (Z.of_nat (n + 1) - 1 - windowSize s + 1)).
    assert (Hstart : Z.to_nat start = (n - (Z.to_nat (windowSize s) - 1))%nat)
      by (unfold start; lia).
    rewrite skipn_app.
    replace (Z.to_nat start - length l)%nat with 0%nat by (fold n; lia).
    simpl skipn.
    assert (Hend : (Z.of_nat (n + 1) - 1
                    = start + Z.of_nat (length (skipn (Z.to_nat start) l)))%Z).
    { rewrite length_skipn. fold n. unfold start. lia. }
    rewrite Hend, Z.eqb_eq.
    rewrite (localMin_scan_last _ x start None (-1)%Z) by (unfold start; lia).
    rewrite Hstart. fold n. change (skipn (n - (Z.to_nat (windowSize s) - 1)) l)
      with (skipn (length l - (Z.to_nat (windowSize s) - 1)) l).
    fold (trailing (Z.to_nat (windowSize s) - 1) l).
    split.
    + intros [H _]. split; [exact Elen|]. now exists l, x.
    + intros (_ & l' & x' & Heq & H). apply app_inj_tail in Heq as [<- <-].
      now split.
Qed.

Lemma isLocalMin_iff_strict_minimum_witness :
  _isLocalMin (run (new_StrokeState options_small) session_first_catch) = true.
Proof.
  apply (isLocalMin_iff_strict_minimum
           (run (new_StrokeState options_small) session_first_catch)).
  - vm_compute. discriminate.
  - split; [vm_compute; discriminate|].
    exists [mkAngle 0 120; mkAngle 1 110], (mkAngle 2 100).
    split; [vm_compute; reflexivity|].
    intros p Hp. vm_compute in Hp.
    destruct Hp as [<- | [<- | []]]; reflexivity.
Defined.

Lemma fold_sum_angles l : forall acc,
  fold_left (fun acc p => acc + sample_a p) l acc
  == acc + Qsum (map sample_a l).
Proof.
  induction l as [|p l IH]; intro acc; simpl.
  - unfold Qsum. simpl. ring.
  - rewrite IH. unfold Qsum. simpl. ring.
Qed.

Lemma Qsum_bounds lo hi l :
  (forall x, In x l -> lo <= x <= hi) ->
  inject_Z (Z.of_nat (length l)) * lo <= Qsum l
  /\ Qsum l <= inject_Z (Z.of_nat (length l)) * hi.
Proof.
  induction l as [|x l IH]; intro H.
  - unfold Qsum. cbn [length Z.of_nat fold_right]. change (inject_Z 0) with 0.
    rewrite !Qmult_0_l. split; apply Qle_refl.
  - destruct IH as [IHlo IHhi]; [intros z Hz; apply H; now right|].
    destruct (H x (or_introl eq_refl)) as [Hlo Hhi].
    unfold Qsum in *. cbn [fold_right length].
    rewrite Nat2Z.inj_succ, <- Z.add_1_r, inject_Z_plus.
    change (inject_Z 1) with 1. split; qlra.
Qed.

(** X4.  With [smooth] at least one, [smoothedAngle] is null as long as the
    history holds fewer than [smooth] samples; from then on it is the
    arithmetic mean of the last [smooth] raw angles, so it lies between any
    two bounds that hold for all of them. *)
Theorem smoothedAngle_is_trailing_mean (s : StrokeState) :
  (1 <= smooth s)%Z ->
  let n := Z.to_nat (smooth s) in
  ((length (angles s) < n)%nat -> smoothedAngle s = None)
  /\ ((n <= length (angles s))%nat ->
      exists v, smoothedAngle s = Some (Fin v)
        /\ v == mean (map sample_a (trailing n (angles s)))
        /\ forall lo hi,
             (forall p, In p (trailing n (angles s)) ->
                        lo <= sample_a p <= hi) ->
             lo <= v <= hi).
Proof.
  intros Hsm n. unfold smoothedAngle. split; intro Hlen.
  - assert (E : (Z.of_nat (length (angles s)) <? smooth s)%Z = true)
      by (apply Z.ltb_lt; lia).
    now rewrite E.
  - assert (E : (Z.of_nat (length (angles s)) <? smooth s)%Z = false)
      by (apply Z.ltb_ge; lia).
    assert (E0 : (smooth s =? 0)%Z = false) by (apply Z.eqb_neq; lia).
    rewrite E, E0.
    replace (Z.to_nat (Z.of_nat (length (angles s)) - smooth s))
      with (length (angles s) - n)%nat by lia.
    fold (trailing n (angles s)).
    assert (Hn : length (map sample_a (trailing n (angles s))) = n).
    { rewrite length_map. unfold trailing. rewrite length_skipn. lia. }
    assert (Hz : inject_Z (Z.of_nat n) = inject_Z (smooth s))
      by (unfold n; now rewrite Z2Nat.id by lia).
    assert (Hpos : 0 < inject_Z (smooth s)).
    { change 0 with (inject_Z 0). rewrite <- Zlt_Qlt. lia. }
    eexists. split; [reflexivity|].
    assert (Hmean : fold_left (fun acc p => acc + sample_a p)
                      (trailing n (angles s)) 0 / inject_Z (smooth s)
                    == mean (map sample_a (trailing n (angles s)))).
    { unfold mean. rewrite Hn, Hz, fold_sum_angles, Qplus_0_l. reflexivity. }
    split; [exact Hmean|].
    intros lo hi Hb. rewrite Hmean. unfold mean. rewrite Hn, Hz.
    destruct (Qsum_bounds lo hi (map sample_a (trailing n (angles s))))
      as [Hlo Hhi].
    { intros z Hz'. apply in_map_iff in Hz' as (p & <- & Hp). now apply Hb. }
    rewrite Hn, Hz in Hlo, Hhi.
    split.
    + apply Qle_shift_div_l; [exact Hpos|]. rewrite Qmult_comm. exact Hlo.
    + apply Qle_shift_div_r; [exact Hpos|]. rewrite Qmult_comm. exact Hhi.
Qed.

Lemma smoothedAngle_is_trailing_mean_witness :
  exists v,
    smoothedAngle (run (new_StrokeState options_small) session_first_catch)
    = Some (Fin v)
    /\ v == 100.
Proof.
  destruct (smoothedAngle_is_trailing_mean
              (run (new_StrokeState options_small) session_first_catch))
    as [_ H]; [vm_compute; discriminate|].
  destruct H as (v & Hv & Hmean & _); [vm_compute; lia|].
  exists v. split; [exact Hv|]. rewrite Hmean. vm_compute. reflexivity.
Defined.

(** ** When a catch is recorded *)

(** X5.  In a session on a constructed detector the primary rule never
    fires, so a call with a finite angle records a catch exactly when the
    fallback guard holds on the state right after the sample is pushed: the
    trailing mean is at or below the threshold, the sample is a strict
    window minimum, the refractory test passes and the duplicate check does
    not object.  The call then appends its own timestamp, once. *)
Theorem session_catches_come_from_fallback
    (o : Options) (cs : list call) (t a : Q) :
  let s := run (new_StrokeState o) cs in
  let s1 := update_streak (push_sample s t a) in
  primary_fires s1 t = false
  /\ catches (update s t (Fin a))
     = if fallback_fires s1 t then catches s ++ [t] else catches s.
Proof.
  intros s s1.
  assert (Hp : primary_fires s1 t = false).
  { unfold s1. apply primary_never_fires. unfold s.
    rewrite run_windowSize. simpl. lia. }
  split; [exact Hp|].
  unfold update. fold s1. rewrite finish_rule_catches.
  unfold fallback_rule, primary_rule. rewrite Hp.
  destruct (fallback_fires s1 t); simpl; unfold s1;
    now rewrite update_streak_catches, push_sample_catches.
Qed.

Lemma underThreshold_ext s s' :
  angles s' = angles s -> same_settings s s' ->
  underThreshold s' = underThreshold s.
Proof.
  intros Ha (Hc & Hs & _). unfold underThreshold, smoothedAngle.
  now rewrite Ha, Hc, Hs.
Qed.

Lemma isLocalMin_ext s s' :
  angles s' = angles s -> same_settings s s' ->
  _isLocalMin s' = _isLocalMin s.
Proof.
  intros Ha (_ & _ & _ & _ & Hw). unfold _isLocalMin. now rewrite Ha, Hw.
Qed.

Lemma primary_fires_evidence s t :
  primary_fires s t = true -> underThreshold s = true /\ _isLocalMin s = true.
Proof.
  unfold primary_fires.
  destruct (2 <=? length (deriv s))%nat; [|discriminate].
  destruct (nth_error _ _); [|discriminate].
  destruct (nth_error _ _); [|discriminate].
  rewrite !andb_true_iff. tauto.
Qed.

Lemma fallback_fires_evidence s t :
  fallback_fires s t = true -> underThreshold s = true /\ _isLocalMin s = true.
Proof. unfold fallback_fires. rewrite !andb_true_iff. tauto. Qed.

Lemma primary_rule_frame s t :
  angles (primary_rule s t) = angles s /\ same_settings s (primary_rule s t).
Proof.
  unfold primary_rule, same_settings.
  destruct (primary_fires s t); simpl; repeat split; reflexivity.
Qed.

(** The catch list after a call, whatever the refractory interval. *)
Lemma update_catches_any s t angle :
  catches (update s t angle) = catches s
  \/ catches (update s t angle) = catches s ++ [t]
  \/ catches (update s t angle) = (catches s ++ [t]) ++ [t].
Proof.
  destruct angle as [a| | |]; try (now left).
  unfold update. rewrite finish_rule_catches.
  set (s1 := update_streak (push_sample s t a)).
  assert (Hc1 : catches s1 = catches s)
    by (unfold s1; now rewrite update_streak_catches, push_sample_catches).
  unfold fallback_rule, primary_rule.
  destruct (primary_fires s1 t); destruct (fallback_fires _ t);
    simpl; rewrite Hc1; auto.
Qed.

(** X6.  For every detector state: when a call of [update] changes the
    catch list, the new last catch is the call's timestamp, and in the state
    the call returns the trailing mean is at or below [catchAngleMax] and the
    newest sample passes [_isLocalMin].  Both rules demand this evidence. *)
Theorem catch_needs_threshold_and_minimum
    (s : StrokeState) (t : Q) (angle : jsnum) :
  catches (update s t angle) <> catches s ->
  last_elem (catches (update s t angle)) = Some t
  /\ underThreshold (update s t angle) = true
  /\ _isLocalMin (update s t angle) = true.
Proof.
  intro Hne. split.
  - destruct (update_catches_any s t angle) as [E | [E | E]];
      [contradiction | rewrite E; apply last_elem_app
       | rewrite E; apply last_elem_app].
  - destruct angle as [a| | |]; try (exfalso; now apply Hne).
    set (s1 := update_streak (push_sample s t a)).
    assert (Hev : underThreshold s1 = true /\ _isLocalMin s1 = true).
    { destruct (primary_fires s1 t) eqn:Hp;
        [now apply primary_fires_evidence in Hp|].
      destruct (fallback_fires s1 t) eqn:Hf;
        [now apply fallback_fires_evidence in Hf|].
      exfalso. apply Hne. unfold update. fold s1.
      rewrite finish_rule_catches. unfold fallback_rule, primary_rule.
      rewrite Hp, Hf. unfold s1.
      now rewrite update_streak_catches, push_sample_catches. }
    destruct (rules_frame s1 t) as (Ha & _ & _ & Hs).
    unfold update. fold s1.
    rewrite (underThreshold_ext s1 _ Ha Hs), (isLocalMin_ext s1 _ Ha Hs).
    exact Hev.
Qed.

Lemma catch_needs_threshold_and_minimum_witness :
  let s := run (new_StrokeState options_small)
             [Update 0 (Fin 120); Update 1 (Fin 110)] in
  catches (update s 2 (Fin 100)) = [2]
  /\ underThreshold (update s 2 (Fin 100)) = true
  /\ _isLocalMin (update s 2 (Fin 100)) = true.
Proof.
  intro s. split; [vm_compute; reflexivity|].
  apply (catch_needs_threshold_and_minimum s 2 (Fin 100)).
  vm_compute. discriminate.
Defined.

(** ** Where the recorded events come from *)

(** Where a finish appended by a call comes from. *)
Lemma update_finish_origin s t a :
  finishes (update s t (Fin a)) = finishes s
  \/ exists k c p,
       finishes (update s t (Fin a)) = finishes s ++ [k]
       /\ last_elem (catches (update s t (Fin a))) = Some c
       /\ In p (angles (update s t (Fin a)))
       /\ sample_t p = k /\ c <= k.
Proof.
  unfold update.
  set (s3 := fallback_rule (primary_rule (update_streak (push_sample s t a)) t) t).
  assert (Hfin : finishes s3 = finishes s).
  { unfold s3. rewrite fallback_rule_finishes, primary_rule_finishes,
      update_streak_finishes, push_sample_finishes. reflexivity. }
  pose proof (finish_rule_cases s3) as Hcases. cbv zeta in Hcases.
  rewrite Hfin in Hcases.
  rewrite finish_rule_catches, finish_rule_angles.
  destruct Hcases as [[E _] | [[E _] | (k & Hk & E & _)]].
  - left. exact E.
  - left. exact E.
  - right. apply peak_time_in in Hk as (c & p & Hlast & Hp & Hpt).
    apply window_since_In in Hp as [Hp Hle].
    exists k, c, p. rewrite <- Hpt.
    split; [rewrite Hpt; exact E|]. split; [exact Hlast|].
    split; [exact Hp|]. split; [reflexivity | exact Hle].
Qed.

Lemma update_anchored s t angle : anchored s -> anchored (update s t angle).
Proof.
  intros [Hc Hf].
  destruct angle as [a| | |]; [| exact (conj Hc Hf) ..].
  pose proof (update_angles s t a) as Hang.
  pose proof (update_catches_any s t (Fin a)) as Hcat.
  pose proof (update_finish_origin s t a) as Hfin.
  remember (update s t (Fin a)) as r eqn:Er. clear Er.
  assert (Hold : forall z, In z (map sample_t (angles s)) ->
                           In z (map sample_t (angles r))).
  { intros z Hz. rewrite Hang, map_app. apply in_or_app. left. exact Hz. }
  assert (Hnew : In t (map sample_t (angles r))).
  { rewrite Hang, map_app. apply in_or_app. right. left. reflexivity. }
  assert (Hgrow : forall c, In c (catches s) -> In c (catches r)).
  { intros c Hin. destruct Hcat as [E | [E | E]]; rewrite E.
    - exact Hin.
    - apply in_or_app. left. exact Hin.
    - apply in_or_app. left. apply in_or_app. left. exact Hin. }
  assert (Hsrc : forall c, In c (catches r) -> In c (catches s) \/ c = t).
  { intros c Hin. destruct Hcat as [E | [E | E]]; rewrite E in Hin.
    - left. exact Hin.
    - apply in_app_or in Hin as [Hin | [<- | []]]; [left; exact Hin | right; reflexivity].
    - apply in_app_or in Hin as [Hin | [<- | []]]; [|right; reflexivity].
      apply in_app_or in Hin as [Hin | [<- | []]]; [left; exact Hin | right; reflexivity]. }
  assert (Hkeep : forall f, In f (finishes s) ->
            In f (map sample_t (angles r))
            /\ exists c, In c (catches r) /\ c <= f).
  { intros f Hin. destruct (Hf f Hin) as [H1 (c & H2 & H3)].
    split; [apply Hold; exact H1|].
    exists c. split; [apply Hgrow; exact H2 | exact H3]. }
  split.
  - intros c Hin. destruct (Hsrc c Hin) as [Hs | ->];
      [apply Hold, Hc; exact Hs | exact Hnew].
  - intros f Hin.
    destruct Hfin as [E | (k & c & p & E & Hlast & Hp & Hpt & Hle)];
      rewrite E in Hin.
    + apply Hkeep. exact Hin.
    + apply in_app_or in Hin as [Hin | [<- | []]]; [apply Hkeep; exact Hin|].
      split.
      * rewrite <- Hpt. apply in_map. exact Hp.
      * exists c. split; [apply last_elem_In; exact Hlast | exact Hle].
Qed.

Lemma run_anchored cs : forall s, anchored s -> anchored (run s cs).
Proof.
  induction cs as [|c cs IH]; intros s Hs; [exact Hs|].
  simpl. apply IH. destruct c as [t angle | v];
    [now apply update_anchored | exact Hs].
Qed.

(** X7.  In every session on a constructed detector, each recorded catch
    and each recorded finish is the timestamp of a sample of the angle
    history, and each finish has a recorded catch at or before it. *)
Theorem session_events_are_sample_times (o : Options) (cs : list call) :
  anchored (run (new_StrokeState o) cs).
Proof.
  apply run_anchored. split; simpl; intros z Hz; contradiction.
Qed.

(** ** The settings *)

Lemma run_settings cs : forall s,
  let r := run s cs in
  smooth r = smooth s /\ minCatchIntervalSec r = minCatchIntervalSec s
  /\ confirmFrames r = confirmFrames s /\ windowSize r = windowSize s
  /\ catchAngleMax r = last_threshold cs (catchAngleMax s).
Proof.
  induction cs as [|c cs IH]; intro s; [now repeat split|].
  change (run s (c :: cs)) with (run (apply_call s c) cs). cbv zeta in *.
  destruct (IH (apply_call s c)) as (h1 & h2 & h3 & h4 & h5).
  rewrite h1, h2, h3, h4, h5.
  destruct c as [t angle | v].
  - destruct (update_settings s t angle) as (g0 & g1 & g2 & g3 & g4).
    cbn [apply_call last_threshold]. rewrite g0, g1, g2, g3, g4.
    now repeat split.
  - now repeat split.
Qed.

(** X8.  No call of [update] touches a setting: after any session [smooth],
    [minCatchIntervalSec], [confirmFrames] and [windowSize] are the clamped
    values of the constructor, and [catchAngleMax] is the value of the last
    assignment to it (the constructor's when there is none). *)
Theorem session_keeps_settings (o : Options) (cs : list call) :
  let s := run (new_StrokeState o) cs in
  smooth s = Z.max 1 (default 5%Z (opt_smooth o))
  /\ minCatchIntervalSec s = default (9 # 10) (opt_minCatchIntervalSec o)
  /\ confirmFrames s = Z.max 1 (default 2%Z (opt_confirmFrames o))
  /\ windowSize s = Z.max 3 (default 9%Z (opt_windowSize o))
  /\ catchAngleMax s = last_threshold cs (default 110 (opt_catchAngleMax o)).
Proof.
  intro s. apply (run_settings cs (new_StrokeState o)).
Qed.

(** ** The range of the reported metrics *)

Lemma Qsum_above c l :
  l <> [] -> (forall x, In x l -> c < x) ->
  inject_Z (Z.of_nat (length l)) * c < Qsum l.
Proof.
  induction l as [|x l IH]; intros Hne H; [congruence|].
  assert (Hx : c < x) by (apply H; now left).
  unfold Qsum in *. cbn [fold_right length].
  rewrite Nat2Z.inj_succ, <- Z.add_1_r, inject_Z_plus.
  change (inject_Z 1) with 1.
  destruct l as [|y l].
  - cbn [length Z.of_nat fold_right]. change (inject_Z 0) with 0. qlra.
  - assert (IH' : inject_Z (Z.of_nat (length (y :: l))) * c
                  < fold_right Qplus 0 (y :: l)).
    { apply IH; [discriminate|]. intros z Hz. apply H. now right. }
    qlra.
Qed.

Lemma length_pos_Q {A : Type} (l : list A) :
  l <> [] -> 0 < inject_Z (Z.of_nat (length l)).
Proof.
  intro H. change 0 with (inject_Z 0). rewrite <- Zlt_Qlt.
  destruct l; [congruence | simpl; lia].
Qed.

Lemma mean_above c l :
  l <> [] -> (forall x, In x l -> c < x) -> c < mean l.
Proof.
  intros Hne H. unfold mean.
  apply Qlt_shift_div_l; [now apply length_pos_Q|].
  rewrite Qmult_comm. now apply Qsum_above.
Qed.

Lemma long_intervals_above cs x :
  In x (long_intervals cs) -> 1 # 10 < x.
Proof.
  unfold long_intervals. rewrite filter_In. intros [_ H].
  now apply Qltb_true.
Qed.

Lemma summary_spm_cases s :
  (long_intervals (catches s) = [] /\ spm (summary s) = 0)
  \/ (long_intervals (catches s) <> []
      /\ spm (summary s) == 60 / mean (long_intervals (catches s))).
Proof.
  unfold summary. rewrite periods_long_intervals.
  destruct (long_intervals (catches s)) as [|p ps] eqn:Ep.
  - left. split; [reflexivity|].
    now destruct (2 <=? length (catches s))%nat.
  - right. split; [discriminate|].
    destruct (2 <=? length (catches s))%nat eqn:E.
    + simpl. unfold mean. rewrite fold_left_Qplus, Qplus_0_l. reflexivity.
    + exfalso. apply Nat.leb_gt in E.
      destruct (catches s) as [|c0 [|c1 cs]]; try discriminate Ep.
      simpl in E. lia.
Qed.

(** X9.  Whatever the state, the stroke rate that [summary()] reports is
    0 or lies strictly between 0 and 600 strokes per minute: only intervals
    above 0.1 s enter the mean.  It is 0 exactly when no interval between
    consecutive catches exceeds 0.1 s. *)
Theorem summary_spm_range (s : StrokeState) :
  0 <= spm (summary s) /\ spm (summary s) < 600
  /\ (spm (summary s) == 0 <-> long_intervals (catches s) = []).
Proof.
  destruct (summary_spm_cases s) as [[Hnil ->] | [Hne Hspm]].
  - split; [apply Qle_refl|]. split; [reflexivity|].
    split; [intros _; exact Hnil | reflexivity].
  - assert (Hm : 1 # 10 < mean (long_intervals (catches s))).
    { apply mean_above; [exact Hne|]. intros x. apply long_intervals_above. }
    assert (Hpos : 0 < 60 / mean (long_intervals (catches s))).
    { apply Qlt_shift_div_l; qlra. }
    assert (Hup : 60 / mean (long_intervals (catches s)) < 600).
    { apply Qlt_shift_div_r; qlra. }
    rewrite Hspm. split; [qlra|]. split; [exact Hup|].
    split; [intro H0; exfalso; qlra | intro Hnil; contradiction].
Qed.

Lemma last_default (l : list Q) (x y : Q) :
  l <> [] -> last l x = last l y.
Proof.
  induction l as [|z l IH]; [congruence | intros _].
  destruct l as [|w l]; [reflexivity|]. apply IH. discriminate.
Qed.

Lemma last_cons_default (l : list Q) (y x : Q) :
  last (y :: l) x = last l y.
Proof.
  destruct l as [|z l]; [reflexivity|].
  change (last (y :: z :: l) x) with (last (z :: l) x).
  apply last_default. discriminate.
Qed.

(** The intervals of a list add up to the last element minus the first. *)
Lemma intervals_sum l : forall x,
  Qsum (intervals (x :: l)) == last l x - x.
Proof.
  induction l as [|y l IH]; intro x.
  - unfold intervals, Qsum. simpl. ring.
  - change (intervals (x :: y :: l)) with ((y - x) :: intervals (y :: l)).
    unfold Qsum in *. cbn [fold_right]. rewrite IH.
    rewrite (last_cons_default l y x). ring.
Qed.

Lemma intervals_length l : length (intervals l) = (length l - 1)%nat.
Proof.
  induction l as [|x l IH]; [reflexivity|].
  destruct l as [|y l]; [reflexivity|].
  change (intervals (x :: y :: l)) with ((y - x) :: intervals (y :: l)).
  cbn [length] in *. lia.
Qed.

Lemma separated_intervals m l :
  separated m l -> forall x, In x (intervals l) -> m < x.
Proof.
  induction l as [|a l IH]; intros Hs x Hx; [contradiction|].
  destruct l as [|b l]; [contradiction|].
  change (intervals (a :: b :: l)) with ((b - a) :: intervals (b :: l)) in Hx.
  destruct Hs as [Hab Hs].
  destruct Hx as [<- | Hx]; [exact Hab | now apply IH].
Qed.

Lemma long_intervals_all cs :
  (forall x, In x (intervals cs) -> 1 # 10 < x) ->
  long_intervals cs = intervals cs.
Proof.
  intro H. unfold long_intervals.
  induction (intervals cs) as [|d ds IH]; [reflexivity|].
  simpl. assert (E : Qltb (1 # 10) d = true)
    by (apply Qltb_true, H; now left).
  rewrite E. f_equal. apply IH. intros x Hx. apply H. now right.
Qed.

Lemma last_elem_last (l : list Q) (x d : Q) :
  last_elem (x :: l) = Some (last l x).
Proof.
  revert x. induction l as [|y l IH]; intro x; [reflexivity|].
  rewrite last_elem_cons by discriminate. rewrite IH.
  now rewrite last_cons_default.
Qed.

(** X10.  In a session on a constructed detector whose
    [minCatchIntervalSec] is at least 0.1, once two catches exist the
    reported stroke rate is 60 times the number of completed strokes (the
    catches minus one) divided by the time from the first catch to the last,
    and the rate times [minCatchIntervalSec] stays below 60. *)
Theorem session_spm_closed_form (o : Options) (cs : list call) :
  1 # 10 <= minCatchIntervalSec (new_StrokeState o) ->
  let s := run (new_StrokeState o) cs in
  forall c0 cl,
    hd_error (catches s) = Some c0 -> last_elem (catches s) = Some cl ->
    (2 <= length (catches s))%nat ->
    spm (summary s)
    == 60 * inject_Z (Z.of_nat (length (catches s) - 1)) / (cl - c0)
    /\ spm (summary s) * minCatchIntervalSec (new_StrokeState o) < 60.
Proof.
  intros Hm s c0 cl Hhd Hlast Hlen.
  assert (Hsep : separated (minCatchIntervalSec (new_StrokeState o)) (catches s)).
  { unfold s. apply run_separated; [qlra | exact I]. }
  set (m := minCatchIntervalSec (new_StrokeState o)) in *.
  assert (Hint : forall x, In x (intervals (catches s)) -> m < x)
    by now apply separated_intervals.
  assert (Hall : long_intervals (catches s) = intervals (catches s)).
  { apply long_intervals_all. intros x Hx. specialize (Hint x Hx). qlra. }
  assert (Hne : intervals (catches s) <> []).
  { intro E. apply (f_equal (@length Q)) in E.
    rewrite intervals_length in E. simpl in E. lia. }
  destruct (summary_spm_cases s) as [[Hnil _] | [_ Hspm]];
    [rewrite Hall in Hnil; contradiction|].
  rewrite Hall in Hspm.
  assert (Hmean : mean (intervals (catches s))
                  == (cl - c0) / inject_Z (Z.of_nat (length (catches s) - 1))).
  { unfold mean. rewrite intervals_length.
    destruct (catches s) as [|x l] eqn:Ec; [discriminate|].
    injection Hhd as <-. rewrite (last_elem_last l x 0) in Hlast.
    injection Hlast as <-. rewrite intervals_sum. reflexivity. }
  assert (Hn : 0 < inject_Z (Z.of_nat (length (catches s) - 1))).
  { change 0 with (inject_Z 0). rewrite <- Zlt_Qlt. lia. }
  assert (Hmm : m < mean (intervals (catches s)))
    by (apply mean_above; assumption).
  assert (Hd : 0 < cl - c0).
  { assert (H0 : 0 < mean (intervals (catches s))) by qlra.
    rewrite Hmean in H0.
    destruct (Qlt_le_dec 0 (cl - c0)) as [H|H]; [exact H|].
    exfalso.
    assert (Hle : (cl - c0) / inject_Z (Z.of_nat (length (catches s) - 1)) <= 0).
    { apply Qle_shift_div_r; [exact Hn | qlra]. }
    rewrite <- Hmean in Hle. qlra. }
  split.
  - rewrite Hspm, Hmean. field. split; qlra.
  - rewrite Hspm.
    assert (H0 : 0 < mean (intervals (catches s))) by qlra.
    unfold Qdiv. rewrite <- Qmult_assoc.
    rewrite (Qmult_comm (/ _) m). rewrite Qmult_assoc.
    apply Qlt_shift_div_r; [exact H0 | qlra].
Qed.

Lemma session_spm_closed_form_witness :
  let s := run (new_StrokeState options_small) session_two_strokes in
  catches s = [2; 6; 8]
  /\ spm (summary s) == 60 * 2 / (8 - 2).
Proof.
  intro s. split; [vm_compute; reflexivity|].
  assert (Hm : 1 # 10 <= minCatchIntervalSec (new_StrokeState options_small))
    by (vm_compute; discriminate).
  assert (Hhd : hd_error (catches s) = Some 2) by (vm_compute; reflexivity).
  assert (Hl : last_elem (catches s) = Some 8) by (vm_compute; reflexivity).
  assert (Hn : (2 <= length (catches s))%nat) by (vm_compute; lia).
  destruct (session_spm_closed_form options_small session_two_strokes
              Hm 2 8 Hhd Hl Hn) as [H _].
  exact H.
Defined.

(** X11.  The drive/recovery ratio that [summary()] reports is null when no
    finish is recorded, and strictly positive whenever it is a number. *)
Theorem summary_drr_positive (s : StrokeState) :
  (finishes s = [] -> drr (summary s) = None)
  /\ (forall r, drr (summary s) = Some r -> 0 < r).
Proof.
  unfold summary.
  destruct (2 <=? length (catches s))%nat; simpl.
  2:{ split; [reflexivity | discriminate]. }
  split.
  - intros ->. reflexivity.
  - intros r Hr.
    pose proof (drr_scan_spec (catches s) (finishes s)
                  (Nat.min (length (finishes s)) (length (catches s) - 1))) as H.
    rewrite Hr in H.
    destruct H as (i & _ & (tC & tF & tN & _ & _ & _ & _ & _ & Hd & Hrec & ->) & _).
    apply Qlt_shift_div_l; [exact Hrec | qlra].
Qed.

End DetectorMore.

(** * Facts about the frame handler *)

Module HandlerFacts.
Import Detector DetectorSpec MoreSpec DetectorFacts DetectorMore.
Import Threshold ThresholdFacts Smoother Session Letterbox.

(** ** The landmark smoother *)

Lemma effective_alpha_range alpha :
  0 <= effective_alpha alpha <= 9 # 10.
Proof.
  destruct alpha as [q| | |]; simpl; try (split; discriminate).
  unfold Math_max, Math_min.
  destruct (Qleb (9 # 10) q) eqn:E1.
  - simpl. split; discriminate.
  - apply Qleb_false in E1. destruct (Qleb 0 q) eqn:E2.
    + apply Qleb_true in E2. split; qlra.
    + split; discriminate.
Qed.

Lemma Joint_eqb_refl j : Joint_eqb j j = true.
Proof. now destruct j. Qed.

Lemma Joint_eqb_neq j k : j <> k -> Joint_eqb j k = false.
Proof. destruct j, k; simpl; congruence. Qed.

Lemma blend_between a p q :
  0 <= a <= 1 ->
  Qmin q p <= a * p + (1 - a) * q <= Qmax q p.
Proof.
  intros [H0 H1].
  assert (Hd : a * p + (1 - a) * q == q + a * (p - q)) by ring.
  rewrite Hd.
  destruct (Qlt_le_dec p q) as [Hlt | Hle].
  - rewrite (Q.min_r q p), (Q.max_l q p) by qlra.
    assert (a * (p - q) <= 0).
    { assert (0 <= a * (q - p)) by (apply Qmult_le_0_compat; qlra).
      assert (Hr : a * (q - p) == - (a * (p - q))) by ring.
      qlra. }
    assert (p - q <= a * (p - q)).
    { assert (0 <= (1 - a) * (q - p)) by (apply Qmult_le_0_compat; qlra).
      assert (Hr : (1 - a) * (q - p) == a * (p - q) - (p - q)) by ring.
      qlra. }
    split; qlra.
  - rewrite (Q.min_l q p), (Q.max_r q p) by qlra.
    assert (0 <= a * (p - q)) by (apply Qmult_le_0_compat; qlra).
    assert (a * (p - q) <= p - q).
    { assert (0 <= (1 - a) * (p - q)) by (apply Qmult_le_0_compat; qlra).
      assert (Hr : (1 - a) * (p - q) == (p - q) - a * (p - q)) by ring.
      qlra. }
    split; qlra.
Qed.

Lemma smoothLm_blend
    (st : LmPrev) (alpha : jsnum) (name : Joint) (p prev : Landmark) :
  st name = Some prev ->
  let a := effective_alpha alpha in
  exists out,
    smoothLm st alpha name (Some p) = (lmPrev_set st name out, Some out)
    /\ fst (smoothLm st alpha name (Some p)) name = Some out
    /\ 0 <= a <= 9 # 10
    /\ lm_x out - lm_x p == (1 - a) * (lm_x prev - lm_x p)
    /\ lm_y out - lm_y p == (1 - a) * (lm_y prev - lm_y p)
    /\ Qmin (lm_x prev) (lm_x p) <= lm_x out <= Qmax (lm_x prev) (lm_x p)
    /\ Qmin (lm_y prev) (lm_y p) <= lm_y out <= Qmax (lm_y prev) (lm_y p).
Proof.
  intros Hprev a. unfold smoothLm. rewrite Hprev. fold a.
  pose proof (effective_alpha_range alpha) as Ha. fold a in Ha.
  eexists. split; [reflexivity|].
  split; [simpl; unfold lmPrev_set; now rewrite Joint_eqb_refl|].
  split; [exact Ha|]. simpl.
  split; [ring|]. split; [ring|].
  split; apply blend_between; qlra.
Qed.



(** X13.  [smoothLm] keeps the joints apart: a call for one joint leaves
    the stored point of every other joint as it was, a missing landmark
    changes nothing at all, and the first landmark of a joint is handed on
    unchanged and becomes its stored point. *)
Theorem smoothLm_joints_independent
    (st : LmPrev) (alpha : jsnum) (name : Joint) :
  (forall p k, k <> name -> fst (smoothLm st alpha name p) k = st k)
  /\ smoothLm st alpha name None = (st, None)
  /\ (forall p, st name = None ->
        snd (smoothLm st alpha name (Some p)) = Some p
        /\ fst (smoothLm st alpha name (Some p)) name = Some p).
Proof.
  split; [|split].
  - intros p k Hk. unfold smoothLm.
    destruct p as [p|]; [|reflexivity].
    destruct (st name); simpl; unfold lmPrev_set;
      now rewrite (Joint_eqb_neq k name Hk).
  - reflexivity.
  - intros p Hnone. unfold smoothLm. rewrite Hnone. simpl.
    unfold lmPrev_set. rewrite Joint_eqb_refl. now destruct p.
Qed.

Lemma smooth_frames_held alpha name p n : forall st prev,
  st name = Some prev ->
  let a := effective_alpha alpha in
  let outs := snd (smooth_frames st alpha name (repeat p n)) in
  length outs = n
  /\ forall i out, nth_error outs i = Some out ->
       lm_x out - lm_x p == Qpow (1 - a) (S i) * (lm_x prev - lm_x p)
       /\ lm_y out - lm_y p == Qpow (1 - a) (S i) * (lm_y prev - lm_y p).
Proof.
  induction n as [|n IH]; intros st prev Hprev a outs.
  - split; [reflexivity|]. intros i out H. destruct i; discriminate H.
  - unfold outs. cbn [repeat smooth_frames].
    destruct (smoothLm_blend st alpha name p prev Hprev)
      as (o1 & Heq & Hst & _ & Hx & Hy & _).
    rewrite Heq.
    assert (Hst1 : lmPrev_set st name o1 name = Some o1)
      by (unfold lmPrev_set; now rewrite Joint_eqb_refl).
    specialize (IH (lmPrev_set st name o1) o1 Hst1). cbv zeta in IH.
    destruct (smooth_frames (lmPrev_set st name o1) alpha name (repeat p n))
      as [st2 outs2].
    cbn [snd] in IH |- *. destruct IH as [Hlen Hnth].
    split; [cbn [length]; now rewrite Hlen|].
    fold a in Hx, Hy.
    intros [|i] out Hout; cbn [nth_error] in Hout.
    + injection Hout as <-. cbn [Qpow]. split.
      * rewrite Hx. ring.
      * rewrite Hy. ring.
    + destruct (Hnth i out Hout) as [Hix Hiy]. fold a in Hix, Hiy.
      remember (S i) as k. cbn [Qpow]. split.
      * rewrite Hix. setoid_replace (lm_x o1 - lm_x p)
          with ((1 - a) * (lm_x prev - lm_x p)) by exact Hx. ring.
      * rewrite Hiy. setoid_replace (lm_y o1 - lm_y p)
          with ((1 - a) * (lm_y prev - lm_y p)) by exact Hy. ring.
Qed.

(** X14.  A joint that is held at the position [p] is approached
    geometrically: after its stored point was [prev], the point handed on for
    frame number [i] (from 0) differs from [p], in each coordinate, by
    [(1 - a)] to the power [i + 1] times the initial difference. *)
Theorem smoothLm_held_position_converges
    (st : LmPrev) (alpha : jsnum) (name : Joint) (p prev : Landmark) (n : nat) :
  st name = Some prev ->
  let a := effective_alpha alpha in
  let outs := snd (smooth_frames st alpha name (repeat p n)) in
  length outs = n
  /\ forall i out, nth_error outs i = Some out ->
       lm_x out - lm_x p == Qpow (1 - a) (S i) * (lm_x prev - lm_x p)
       /\ lm_y out - lm_y p == Qpow (1 - a) (S i) * (lm_y prev - lm_y p).
Proof. intro H. now apply smooth_frames_held. Qed.

Lemma smoothLm_held_position_converges_witness :
  let outs := snd (smooth_frames smoother_after_seed (Fin (1 # 2)) Knee
                     (repeat (mkLandmark 1 0) 3)) in
  length outs = 3%nat
  /\ forall i out, nth_error outs i = Some out ->
       lm_x out - 1 == Qpow (1 - (1 # 2)) (S i) * ((1 # 2) - 1)
       /\ lm_y out - 0 == Qpow (1 - (1 # 2)) (S i) * ((1 # 2) - 0).
Proof.
  exact (smoothLm_held_position_converges smoother_after_seed (Fin (1 # 2))
           Knee (mkLandmark 1 0) (mkLandmark (1 # 2) (1 # 2)) 3 eq_refl).
Defined.

Lemma smooth_frames_frozen alpha name ps : forall st prev,
  effective_alpha alpha == 0 ->
  st name = Some prev ->
  forall out, In out (snd (smooth_frames st alpha name ps)) ->
    lm_x out == lm_x prev /\ lm_y out == lm_y prev.
Proof.
  induction ps as [|p ps IH]; intros st prev Ha Hprev out Hin;
    [contradiction|].
  cbn [smooth_frames] in Hin.
  destruct (smoothLm_blend st alpha name p prev Hprev)
    as (o1 & Heq & _ & _ & Hx & Hy & _).
  rewrite Heq in Hin.
  assert (Hst1 : lmPrev_set st name o1 name = Some o1)
    by (unfold lmPrev_set; now rewrite Joint_eqb_refl).
  specialize (IH (lmPrev_set st name o1) o1 Ha Hst1).
  destruct (smooth_frames (lmPrev_set st name o1) alpha name ps)
    as [st2 outs2].
  rewrite Ha in Hx, Hy.
  assert (H1x : lm_x o1 == lm_x prev) by qlra.
  assert (H1y : lm_y o1 == lm_y prev) by qlra.
  simpl in Hin. destruct Hin as [<- | Hin]; [now split|].
  destruct (IH out Hin) as [Hox Hoy]. split; qlra.
Qed.

(** X15.  With [landmarkAlpha] zero, negative or NaN the smoother is
    frozen: whatever landmarks arrive for a joint, every point handed on
    keeps the coordinates of the joint's stored point. *)
Theorem smoothLm_zero_alpha_freezes
    (st : LmPrev) (alpha : jsnum) (name : Joint) (prev : Landmark)
    (ps : list Landmark) :
  match alpha with
  | Fin q => q <= 0
  | NaN => True
  | NegInf => True
  | PosInf => False
  end ->
  st name = Some prev ->
  forall out, In out (snd (smooth_frames st alpha name ps)) ->
    lm_x out == lm_x prev /\ lm_y out == lm_y prev.
Proof.
  intros Halpha Hprev. apply smooth_frames_frozen; [|exact Hprev].
  destruct alpha as [q| | |]; simpl; try reflexivity; [|contradiction].
  unfold Math_max, Math_min.
  destruct (Qleb (9 # 10) q) eqn:E1.
  - apply Qleb_true in E1. exfalso. qlra.
  - destruct (Qleb 0 q) eqn:E2; [|reflexivity].
    apply Qleb_true in E2. qlra.
Qed.

Lemma smoothLm_zero_alpha_freezes_witness :
  length (snd (smooth_frames smoother_after_seed NaN Knee
                 [mkLandmark 1 0; mkLandmark 0 1])) = 2%nat
  /\ forall out,
       In out (snd (smooth_frames smoother_after_seed NaN Knee
                      [mkLandmark 1 0; mkLandmark 0 1])) ->
       lm_x out == 1 # 2 /\ lm_y out == 1 # 2.
Proof.
  split; [vm_compute; reflexivity|].
  exact (smoothLm_zero_alpha_freezes smoother_after_seed NaN Knee
           (mkLandmark (1 # 2) (1 # 2)) [mkLandmark 1 0; mkLandmark 0 1]
           I eq_refl).
Defined.

(** ** The knee window and the threshold it yields *)

(** X16.  When the knee window is ordered in time and the new sample is
    not older than any sample in it, [updateKneeWindow] with a finite angle
    leaves exactly the trailing window: the samples, the new one included,
    whose time is at least [t - 8]; the window stays ordered and ends with
    the new sample.  A non-finite angle leaves the window untouched, without
    evicting anything. *)
Theorem updateKneeWindow_keeps_trailing_window
    (w : list KneeSample) (t a : Q) :
  nondecreasing (map knee_t w) ->
  (forall k, In k w -> knee_t k <= t) ->
  updateKneeWindow w t (Fin a)
  = filter (fun k => Qleb (t - kneeWindowSec) (knee_t k)) (w ++ [mkKnee t a])
  /\ nondecreasing (map knee_t (updateKneeWindow w t (Fin a)))
  /\ last_elem (updateKneeWindow w t (Fin a)) = Some (mkKnee t a)
  /\ updateKneeWindow w t NaN = w.
Proof.
  intros Hnd Hle.
  assert (Hnd' : nondecreasing (map knee_t (w ++ [mkKnee t a]))).
  { rewrite map_app. apply nondecreasing_snoc; [exact Hnd|].
    intros x Hx. apply in_map_iff in Hx as (k & <- & Hk). now apply Hle. }
  assert (Heq : updateKneeWindow w t (Fin a)
                = filter (fun k => Qleb (t - kneeWindowSec) (knee_t k))
                    (w ++ [mkKnee t a])).
  { unfold updateKneeWindow. now apply shift_while_filter. }
  split; [exact Heq|]. split; [|split; [|reflexivity]].
  - rewrite Heq. now apply nondecreasing_filter.
  - rewrite Heq, filter_app. simpl.
    assert (E : Qleb (t - kneeWindowSec) t = true)
      by (apply Qleb_true; unfold kneeWindowSec; qlra).
    rewrite E. apply last_elem_app.
Qed.

Lemma updateKneeWindow_keeps_trailing_window_witness :
  map knee_t
    (updateKneeWindow [mkKnee 0 100; mkKnee 3 110; mkKnee 9 120] 10 (Fin 130))
  = [3; 9; 10].
Proof.
  destruct (updateKneeWindow_keeps_trailing_window
              [mkKnee 0 100; mkKnee 3 110; mkKnee 9 120] 10 130)
    as [H _].
  - concrete_nondecreasing.
  - intros k Hk. simpl in Hk.
    repeat (destruct Hk as [<- | Hk]; [discriminate|]). contradiction.
  - rewrite H. vm_compute. reflexivity.
Defined.

Lemma clamp_range x : 70 <= Math_max 70 (Math_min 130 x) <= 130.
Proof.
  unfold Math_max, Math_min.
  destruct (Qleb 130 x) eqn:E1.
  - simpl. split; discriminate.
  - apply Qleb_false in E1. destruct (Qleb 70 x) eqn:E2.
    + apply Qleb_true in E2. split; qlra.
    + split; discriminate.
Qed.

(** X17.  [estimateCatchThreshold] returns the manual threshold itself
    while the knee window holds fewer than ten samples, and otherwise a value
    in [70, 130], whatever angles the window holds and whatever the manual
    threshold is. *)
Theorem estimateCatchThreshold_range (w : list KneeSample) (manual : Q) :
  ((length w < 10)%nat /\ estimateCatchThreshold w manual = manual)
  \/ ((10 <= length w)%nat
      /\ 70 <= estimateCatchThreshold w manual <= 130).
Proof.
  destruct (Nat.lt_ge_cases (length w) 10) as [Hlt | Hge].
  - left. split; [exact Hlt | now apply estimateCatchThreshold_short].
  - right. split; [exact Hge|].
    unfold estimateCatchThreshold.
    assert (E : (length w <? 10)%nat = false) by now apply Nat.ltb_ge.
    rewrite E. destruct (scan w) as [[mn|] [mx|]];
      try (split; discriminate).
    apply clamp_range.
Qed.

Lemma is_min_unique m m' l : is_min m l -> is_min m' l -> m == m'.
Proof.
  intros [Hin Hlow] [Hin' Hlow']. apply Qle_antisym; auto.
Qed.

Lemma is_max_unique m m' l : is_max m l -> is_max m' l -> m == m'.
Proof.
  intros [Hin Hup] [Hin' Hup']. apply Qle_antisym; auto.
Qed.

(** X18.  On a knee window of at least ten samples whose angles spread over
    one degree or more, [estimateCatchThreshold] is the window minimum plus
    0.35 of the spread, clamped to [70, 130]: the one-degree floor of the
    spread is then idle. *)
Theorem estimateCatchThreshold_wide_window
    (w : list KneeSample) (manual mn mx : Q) :
  (10 <= length w)%nat ->
  is_min mn (map knee_angle w) -> is_max mx (map knee_angle w) ->
  1 <= mx - mn ->
  estimateCatchThreshold w manual == spec_threshold mn mx.
Proof.
  intros Hlen Hmn Hmx Hspread.
  destruct (estimateCatchThreshold_full w manual Hlen)
    as (mn' & mx' & Hmn' & Hmx' & ->).
  pose proof (is_min_unique _ _ _ Hmn' Hmn) as Emn.
  pose proof (is_max_unique _ _ _ Hmx' Hmx) as Emx.
  unfold floored_threshold, spec_threshold, clamp.
  rewrite (Q.max_r 1 (mx' - mn')) by qlra.
  rewrite Emn, Emx. reflexivity.
Qed.

Lemma estimateCatchThreshold_wide_window_witness :
  estimateCatchThreshold
    (map (fun i => mkKnee (inject_Z (Z.of_nat i)) (100 + inject_Z (Z.of_nat i)))
       (seq 0 10)) 110
  == spec_threshold 100 109.
Proof.
  apply estimateCatchThreshold_wide_window.
  - vm_compute. lia.
  - split; [vm_compute; now left|].
    intros x Hx. vm_compute in Hx.
    repeat (destruct Hx as [<- | Hx]; [discriminate|]). contradiction.
  - split; [vm_compute; do 9 right; now left|].
    intros x Hx. vm_compute in Hx.
    repeat (destruct Hx as [<- | Hx]; [discriminate|]). contradiction.
  - discriminate.
Defined.

(** ** Sessions of the frame handler *)

Lemma spm_bound_of_separated s m :
  1 # 10 <= m -> separated m (catches s) ->
  spm (summary s) * m < 60.
Proof.
  intros Hm Hsep.
  destruct (summary_spm_cases s) as [[_ ->] | [Hne Hspm]].
  - rewrite Qmult_0_l. reflexivity.
  - assert (Hint : forall x, In x (intervals (catches s)) -> m < x)
      by now apply separated_intervals.
    assert (Hall : long_intervals (catches s) = intervals (catches s)).
    { apply long_intervals_all. intros x Hx. specialize (Hint x Hx). qlra. }
    rewrite Hall in Hne, Hspm.
    assert (Hmm : m < mean (intervals (catches s)))
      by (apply mean_above; assumption).
    assert (H0 : 0 < mean (intervals (catches s))) by qlra.
    rewrite Hspm. unfold Qdiv. rewrite <- Qmult_assoc.
    rewrite (Qmult_comm (/ _) m). rewrite Qmult_assoc.
    apply Qlt_shift_div_r; [exact H0 | qlra].
Qed.

Lemma handle_keeps_refractory h e :
  minCatchIntervalSec (stroke h) = 9 # 10 ->
  separated (9 # 10) (catches (stroke h)) ->
  minCatchIntervalSec (stroke (handle h e)) = 9 # 10
  /\ separated (9 # 10) (catches (stroke (handle h e))).
Proof.
  intros Hm Hsep. destruct e as [ts angle | b | v |]; cbn [handle].
  - unfold onResults. cbn [stroke].
    set (thr := if autoCatch h then _ else _).
    set (s' := set_catchAngleMax (stroke h) thr).
    assert (Hm' : minCatchIntervalSec s' = 9 # 10) by exact Hm.
    split.
    + rewrite update_interval. exact Hm'.
    + rewrite <- Hm'. apply update_separated.
      * rewrite Hm'. discriminate.
      * rewrite Hm'. exact Hsep.
  - split; assumption.
  - split; assumption.
  - split; [reflexivity | exact I].
Qed.

Lemma handle_all_keeps_refractory es : forall h,
  minCatchIntervalSec (stroke h) = 9 # 10 ->
  separated (9 # 10) (catches (stroke h)) ->
  separated (9 # 10) (catches (stroke (handle_all h es))).
Proof.
  induction es as [|e es IH]; intros h Hm Hsep; [exact Hsep|].
  change (handle_all h (e :: es)) with (handle_all (handle h e) es).
  destruct (handle_keeps_refractory h e Hm Hsep) as [Hm' Hsep'].
  now apply IH.
Qed.

(** X19.  Whatever frames arrive and however the operator moves the
    threshold controls or changes the video source, after a [resetState] the
    frame handler's detector records catches strictly increasing and more
    than 0.9 s apart (the handler never passes [minCatchIntervalSec], so the
    default applies), and the stroke rate it displays stays below 60 / 0.9,
    about 66.7 strokes per minute. *)
Theorem handler_catches_stay_apart (h : Handler) (es : list event) :
  let d := stroke (handle_all (resetState h) es) in
  separated (9 # 10) (catches d)
  /\ increasing (catches d)
  /\ spm (summary d) * (9 # 10) < 60.
Proof.
  intro d.
  assert (Hsep : separated (9 # 10) (catches d)).
  { unfold d. apply handle_all_keeps_refractory; [reflexivity | exact I]. }
  split; [exact Hsep|]. split.
  - apply separated_increasing with (9 # 10); [discriminate | exact Hsep].
  - apply spm_bound_of_separated; [discriminate | exact Hsep].
Qed.

(** ** The letterbox transform *)

Lemma or_else_pos a b : 0 <= a -> 0 < b -> 0 < or_else a b.
Proof.
  intros Ha Hb. unfold or_else. destruct (Qeq_bool a 0) eqn:E; [exact Hb|].
  apply Qeq_bool_neq in E.
  destruct (Qlt_le_dec 0 a) as [H | H]; [exact H|].
  exfalso. apply E. apply Qle_antisym; assumption.
Qed.

Lemma content_rect_facts cw ch videoWidth videoHeight :
  0 < cw -> 0 < ch -> 0 <= videoWidth -> 0 <= videoHeight ->
  let r := getContentRect cw ch videoWidth videoHeight in
  0 < vw r /\ 0 < vh r /\ 0 < s r
  /\ dw r == vw r * s r /\ dh r == vh r * s r
  /\ dw r <= cw /\ dh r <= ch
  /\ (dw r == cw \/ dh r == ch)
  /\ ox r == (cw - dw r) / 2 /\ oy r == (ch - dh r) / 2.
Proof.
  intros Hcw Hch Hvw Hvh.
  unfold getContentRect. cbn [vw vh s dw dh ox oy].
  pose proof (or_else_pos videoWidth cw Hvw Hcw) as Hw.
  pose proof (or_else_pos videoHeight ch Hvh Hch) as Hh.
  set (w := or_else videoWidth cw) in *.
  set (h := or_else videoHeight ch) in *.
  assert (Hsw : 0 < cw / w) by (apply Qlt_shift_div_l; qlra).
  assert (Hsh : 0 < ch / h) by (apply Qlt_shift_div_l; qlra).
  assert (Ew : w * (cw / w) == cw) by (field; qlra).
  assert (Eh : h * (ch / h) == ch) by (field; qlra).
  unfold Math_min. destruct (Qleb (cw / w) (ch / h)) eqn:E.
  - apply Qleb_true in E.
    assert (Hdh : h * (cw / w) <= ch).
    { rewrite <- Eh. apply Qmult_le_l; assumption. }
    repeat split; try reflexivity; try assumption; try qlra.
  - apply Qleb_false in E.
    assert (Hdw : w * (ch / h) <= cw).
    { rewrite <- Ew. apply Qmult_le_l; [assumption | qlra]. }
    repeat split; try reflexivity; try assumption; try qlra.
Qed.



(** X21.  For a canvas of positive size, the point map of
    [adjustNormalizedLandmarksForCanvas] sends a landmark with normalised
    coordinates in [0, 1] to canvas-normalised coordinates inside the video's
    rectangle, hence again in [0, 1]: overlay points never leave the
    canvas. *)
Theorem adjust_stays_in_canvas (cw ch videoWidth videoHeight px py : Q) :
  0 < cw -> 0 < ch -> 0 <= videoWidth -> 0 <= videoHeight ->
  0 <= px <= 1 -> 0 <= py <= 1 ->
  let r := getContentRect cw ch videoWidth videoHeight in
  let q := adjust cw ch videoWidth videoHeight (px, py) in
  ox r / cw <= fst q <= (ox r + dw r) / cw
  /\ oy r / ch <= snd q <= (oy r + dh r) / ch
  /\ 0 <= fst q <= 1 /\ 0 <= snd q <= 1.
Proof.
  intros Hcw Hch Hvw Hvh [Hx0 Hx1] [Hy0 Hy1] r q.
  destruct (content_rect_facts cw ch videoWidth videoHeight Hcw Hch Hvw Hvh)
    as (Hw & Hh & Hs & Edw & Edh & Hdw & Hdh & _ & Eox & Eoy).
  fold r in Hw, Hh, Hs, Edw, Edh, Hdw, Hdh, Eox, Eoy.
  unfold q, adjust. fold r. cbn [fst snd].
  assert (Hdw0 : 0 <= dw r)
    by (rewrite Edw; apply Qmult_le_0_compat; qlra).
  assert (Hdh0 : 0 <= dh r)
    by (rewrite Edh; apply Qmult_le_0_compat; qlra).
  assert (Ex : px * vw r * s r == px * dw r) by (rewrite Edw; ring).
  assert (Ey : py * vh r * s r == py * dh r) by (rewrite Edh; ring).
  assert (Hpx : 0 <= px * dw r <= dw r).
  { split; [apply Qmult_le_0_compat; assumption|].
    setoid_replace (dw r) with (1 * dw r) at 2 by ring.
    apply Qmult_le_compat_r; assumption. }
  assert (Hpy : 0 <= py * dh r <= dh r).
  { split; [apply Qmult_le_0_compat; assumption|].
    setoid_replace (dh r) with (1 * dh r) at 2 by ring.
    apply Qmult_le_compat_r; assumption. }
  assert (Hox : 0 <= ox r) by (rewrite Eox; apply Qle_shift_div_l; qlra).
  assert (Hoy : 0 <= oy r) by (rewrite Eoy; apply Qle_shift_div_l; qlra).
  assert (Hoxw : ox r + dw r <= cw).
  { assert (E2 : ox r + dw r == cw - ox r) by (rewrite Eox; field). qlra. }
  assert (Hoyh : oy r + dh r <= ch).
  { assert (E2 : oy r + dh r == ch - oy r) by (rewrite Eoy; field). qlra. }
  rewrite Ex, Ey. destruct Hpx as [Hpx0 Hpx1]. destruct Hpy as [Hpy0 Hpy1].
  assert (Mono : forall c a b, 0 < c -> a <= b -> a / c <= b / c).
  { intros c a b Hc Hab. unfold Qdiv. apply Qmult_le_compat_r; [exact Hab|].
    apply Qlt_le_weak. now apply Qinv_lt_0_compat. }
  repeat split.
  - apply Mono; qlra.
  - apply Mono; qlra.
  - apply Mono; qlra.
  - apply Mono; qlra.
  - apply Qle_shift_div_l; qlra.
  - apply Qle_shift_div_r; qlra.
  - apply Qle_shift_div_l; qlra.
  - apply Qle_shift_div_r; qlra.
Qed.

Lemma adjust_stays_in_canvas_witness :
  let q := adjust 800 600 1920 1080 (1 # 2, 1) in
  0 <= fst q <= 1 /\ 0 <= snd q <= 1.
Proof.
  intro q.
  destruct (adjust_stays_in_canvas 800 600 1920 1080 (1 # 2) 1)
    as (_ & _ & Hx & Hy);
    try reflexivity; try discriminate; try (split; discriminate).
  split; assumption.
Defined.
End HandlerFacts.
